(** * IterableWeakSet: a shallow embedding and its verification

    The development follows the class [IterableWeakSet] of the package
    (the TypeScript source and its JavaScript build are the same program).
    The container keeps three private fields:

    - [#refs]     : [WeakMap<T, WeakRef<T>>]      (the Membership Index),
    - [#tokens]   : [Map<WeakRef<T>, Token>]      (the Reference Log),
    - [#registry] : [FinalizationRegistry<WeakRef<T>>] (the Reclamation
      Notifier), whose callback is [(ref) => this.#tokens.delete(ref)].

    The host objects ([WeakRef], [WeakMap], [Map], [FinalizationRegistry])
    are modelled after ECMAScript: a [Map] keeps its entries in a list
    whose deleted slots are emptied and never shifted, a [WeakMap] is a
    finite map that loses a key when the key is reclaimed, a [WeakRef]
    resolves to its target until the target is reclaimed, and a
    [FinalizationRegistry] is a list of cells. *)

From stdpp Require Import gmap list strings.
From Stdlib Require Import ZArith.

#[local] Set Warnings "-clear-no-such-hyp".

(** ** Values *)

(** Reference-identity values, named by their identity: the objects,
    functions and non-registered symbols, and the objects with the
    [[IsHTMLDDA]] internal slot (a browser's [document.all]), which are
    objects in every respect but one: [ToBoolean] answers [false] for
    them. *)
Inductive Ref : Type :=
  | Object (id : nat)
  | HTMLDDA (id : nat).

#[global] Instance Ref_eq_dec : EqDecision Ref.
Proof. solve_decision. Defined.

#[global] Instance Ref_countable : Countable Ref.
Proof.
  refine (inj_countable'
            (λ r, match r with Object n => inl n | HTMLDDA n => inr n end)
            (λ x, match x with inl n => Object n | inr n => HTMLDDA n end) _).
  by intros [].
Defined.

(** JavaScript values as far as the container can tell them apart: the
    primitives and the reference-identity values. *)
Inductive JSValue : Type :=
  | VUndefined
  | VNull
  | VBoolean (b : bool)
  | VNumber (n : Z)
  | VString (s : string)
  | VRef (a : Ref).

#[global] Instance JSValue_eq_dec : EqDecision JSValue.
Proof. solve_decision. Defined.

(** ECMAScript's [ToBoolean], as in [if (value)]. *)
Definition ToBoolean (v : JSValue) : bool :=
  match v with
  | VUndefined => false
  | VNull => false
  | VBoolean b => b
  | VNumber n => negb (n =? 0)%Z
  | VString EmptyString => false
  | VString _ => true
  | VRef (Object _) => true
  | VRef (HTMLDDA _) => false
  end.
#[global] Arguments ToBoolean : simpl never.

(** ECMAScript's [CanBeHeldWeakly]. *)
Definition canBeHeldWeakly (v : JSValue) : bool :=
  match v with
  | VRef _ => true
  | _ => false
  end.

(** [new WeakRef(value)]: an object with an identity of its own and a weak
    pointer to its target. *)
Record WeakRef : Type := { wr_id : nat; wr_target : Ref }.

#[global] Instance WeakRef_eq_dec : EqDecision WeakRef.
Proof. solve_decision. Defined.

(** [type Token = Record<string, unknown>]: the source only ever builds
    [{}], an object used for its identity. *)
Abbreviation Token := nat (only parsing).

(** A cell of a [FinalizationRegistry]:
    [[WeakRefTarget]], [[HeldValue]] and [[UnregisterToken]]. *)
Record Cell : Type :=
  { cell_target : Ref; cell_held : WeakRef; cell_token : Token }.

(** The errors the host raises (both are [TypeError]s in JavaScript).
    [InvalidKeyType] is raised by [new WeakRef] and [WeakMap.prototype.set]
    on a value that cannot be held weakly, [InvalidUnregisterToken] by
    [FinalizationRegistry.prototype.unregister] on such a token. *)
Inductive Error : Type :=
  | InvalidKeyType
  | InvalidUnregisterToken.

(** How a call ends. [OutOfFuel] belongs to the model only: it marks a
    loop that was cut before the source's loop would have ended. *)
Inductive Completion (A : Type) : Type :=
  | Normal (a : A)
  | Throw (e : Error)
  | OutOfFuel.
Arguments Normal {A} a.
Arguments Throw {A} e.
Arguments OutOfFuel {A}.

(** ** The state *)

(** A slot of a [Map]'s [[MapData]]: an entry, or [None] once deleted. *)
Abbreviation Slot := (option (WeakRef * Token)) (only parsing).

Record State : Type :=
  { collected : gset Ref;          (* host: identities already reclaimed *)
    next_id : nat;                 (* host: next fresh object identity *)
    refs : gmap Ref WeakRef;       (* #refs *)
    tokens : list Slot;            (* #tokens *)
    registry : list Cell }.        (* #registry *)

Definition with_collected (c : gset Ref) (s : State) : State :=
  {| collected := c; next_id := next_id s; refs := refs s;
     tokens := tokens s; registry := registry s |}.
Definition with_next_id (n : nat) (s : State) : State :=
  {| collected := collected s; next_id := n; refs := refs s;
     tokens := tokens s; registry := registry s |}.
Definition with_refs (m : gmap Ref WeakRef) (s : State) : State :=
  {| collected := collected s; next_id := next_id s; refs := m;
     tokens := tokens s; registry := registry s |}.
Definition with_tokens (t : list Slot) (s : State) : State :=
  {| collected := collected s; next_id := next_id s; refs := refs s;
     tokens := t; registry := registry s |}.
Definition with_registry (r : list Cell) (s : State) : State :=
  {| collected := collected s; next_id := next_id s; refs := refs s;
     tokens := tokens s; registry := r |}.

(** [new IterableWeakSet()] in a host where nothing was reclaimed yet. *)
Definition init : State :=
  {| collected := ∅; next_id := 0; refs := ∅; tokens := []; registry := [] |}.

(** ** A state and exception monad *)

Definition M (A : Type) : Type := State → Completion A * State.

#[global] Instance M_ret : MRet M := λ A a s, (Normal a, s).
#[global] Instance M_bind : MBind M := λ A B f m s,
  match m s with
  | (Normal a, s') => f a s'
  | (Throw e, s') => (Throw e, s')
  | (OutOfFuel, s') => (OutOfFuel, s')
  end.

Definition throw {A : Type} (e : Error) : M A := λ s, (Throw e, s).
Definition gets {A : Type} (f : State → A) : M A := λ s, (Normal (f s), s).
Definition modify (f : State → State) : M unit := λ s, (Normal tt, f s).

(** ** Host primitives *)

(** *** [Map] *)

Fixpoint map_get (k : WeakRef) (m : list Slot) : option Token :=
  match m with
  | [] => None
  | Some (k', v) :: m' => if decide (k' = k) then Some v else map_get k m'
  | None :: m' => map_get k m'
  end.

(** [Map.prototype.delete]: the entry's slot is emptied, the others keep
    their index. *)
Fixpoint map_delete (k : WeakRef) (m : list Slot) : list Slot :=
  match m with
  | [] => []
  | Some (k', v) :: m' =>
      if decide (k' = k) then None :: m' else Some (k', v) :: map_delete k m'
  | None :: m' => None :: map_delete k m'
  end.

Fixpoint map_update (k : WeakRef) (v : Token) (m : list Slot) : list Slot :=
  match m with
  | [] => []
  | Some (k', v') :: m' =>
      if decide (k' = k) then Some (k', v) :: m'
      else Some (k', v') :: map_update k v m'
  | None :: m' => None :: map_update k v m'
  end.

(** [Map.prototype.set]: an existing key keeps its place, a new key is
    appended. *)
Definition map_set (k : WeakRef) (v : Token) (m : list Slot) : list Slot :=
  match map_get k m with
  | Some _ => map_update k v m
  | None => m ++ [Some (k, v)]
  end.

(** *** [WeakMap] *)

(** [has], [get] and [delete] answer [false]/[undefined] for a key that
    cannot be held weakly; only [set] throws on one. *)
Definition weakmap_has (key : JSValue) (m : gmap Ref WeakRef) : bool :=
  match key with
  | VRef a => bool_decide (is_Some (m !! a))
  | _ => false
  end.

Definition weakmap_get (key : JSValue) (m : gmap Ref WeakRef) : option WeakRef :=
  match key with
  | VRef a => m !! a
  | _ => None
  end.

Definition weakmap_delete (key : JSValue) (m : gmap Ref WeakRef) : gmap Ref WeakRef :=
  match key with
  | VRef a => delete a m
  | _ => m
  end.

Definition weakmap_set (key : JSValue) (r : WeakRef) (m : gmap Ref WeakRef)
  : option (gmap Ref WeakRef) :=
  match key with
  | VRef a => Some (<[a := r]> m)
  | _ => None
  end.

(** *** [FinalizationRegistry] *)

Definition registry_unregister_cells (t : Token) (cells : list Cell) : list Cell :=
  filter (λ c, cell_token c ≠ t) cells.

(** ** The statements of the source, one by one *)

(** [{}] : a fresh object; its identity is all that is used. *)
Definition new_object : M Token :=
  λ s, (Normal (next_id s), with_next_id (S (next_id s)) s).

(** [new WeakRef(value)] *)
Definition new_WeakRef (value : JSValue) : M WeakRef :=
  match value with
  | VRef a =>
      λ s, (Normal {| wr_id := next_id s; wr_target := a |},
            with_next_id (S (next_id s)) s)
  | _ => throw InvalidKeyType
  end.

(** [ref.deref()]: the target, or [undefined] once it was reclaimed. *)
Definition deref (ref : WeakRef) (s : State) : option Ref :=
  if decide (wr_target ref ∈ collected s) then None else Some (wr_target ref).

(** The same as a value: [undefined] when there is no target any more. *)
Definition deref_value (ref : WeakRef) (s : State) : JSValue :=
  match deref ref s with
  | Some a => VRef a
  | None => VUndefined
  end.

(** [this.#refs.has(value)] *)
Definition refs_has (value : JSValue) : M bool :=
  gets (λ s, weakmap_has value (refs s)).

(** [this.#refs.get(value)] *)
Definition refs_get (value : JSValue) : M (option WeakRef) :=
  gets (λ s, weakmap_get value (refs s)).

(** [this.#refs.set(value, ref)] *)
Definition refs_set (value : JSValue) (ref : WeakRef) : M unit :=
  λ s, match weakmap_set value ref (refs s) with
       | Some m => (Normal tt, with_refs m s)
       | None => (Throw InvalidKeyType, s)
       end.

(** [this.#refs.delete(value)] *)
Definition refs_delete (value : JSValue) : M unit :=
  modify (λ s, with_refs (weakmap_delete value (refs s)) s).

(** [this.#tokens.get(ref)] *)
Definition tokens_get (ref : WeakRef) : M (option Token) :=
  gets (λ s, map_get ref (tokens s)).

(** [this.#tokens.set(ref, token)] *)
Definition tokens_set (ref : WeakRef) (token : Token) : M unit :=
  modify (λ s, with_tokens (map_set ref token (tokens s)) s).

(** [this.#tokens.delete(ref)] *)
Definition tokens_delete (ref : WeakRef) : M unit :=
  modify (λ s, with_tokens (map_delete ref (tokens s)) s).

(** [this.#registry.register(value, ref, token)]. The host refuses a
    target that cannot be held weakly; [ref] and [token] are objects and
    [ref] is not the target, so the other checks of the host pass. *)
Definition registry_register (value : JSValue) (ref : WeakRef) (token : Token)
  : M unit :=
  match value with
  | VRef a =>
      modify (λ s, with_registry
        (registry s ++ [{| cell_target := a; cell_held := ref; cell_token := token |}]) s)
  | _ => throw InvalidKeyType
  end.

(** [this.#registry.unregister(token)], where [token] is the result of
    [this.#tokens.get(ref)]: [undefined] is refused by the host. *)
Definition registry_unregister (token : option Token) : M unit :=
  match token with
  | Some t =>
      modify (λ s, with_registry (registry_unregister_cells t (registry s)) s)
  | None => throw InvalidUnregisterToken
  end.

(** ** The class *)

(** A generator made by [[Symbol.iterator]]: suspended in front of the
    slot [index] of [#tokens], or completed. *)
Inductive Gen : Type :=
  | Running (index : nat)
  | Done.

(** What [add] returns. *)
Inductive Receiver : Type := This.

Module IterableWeakSet.

(** [has(value) { return this.#refs.has(value); }] *)
Definition has (value : JSValue) : M bool :=
  refs_has value.

(** [add(value)] *)
Definition add (value : JSValue) : M Receiver :=
  present ← has value;
  (if negb present then
     token ← new_object;
     ref ← new_WeakRef value;
     refs_set value ref;;
     tokens_set ref token;;
     registry_register value ref token
   else mret tt);;
  mret This.

(** [delete(value)] *)
Definition delete (value : JSValue) : M bool :=
  found ← refs_get value;
  match found with
  | None => mret false
  | Some ref =>
      refs_delete value;;
      token ← tokens_get ref;
      registry_unregister token;;
      tokens_delete ref;;
      mret true
  end.

(** The body of [*[Symbol.iterator]()], from the slot [index] up to the
    next [yield] or to the end of [#tokens]. The [for..of] over the
    [Map] reads the live entry list at every step and passes over
    emptied slots. [fuel] bounds the slots still to be read. *)
Fixpoint iter_loop (fuel index : nat) : M (option JSValue * Gen) := λ s,
  match tokens s !! index with
  | None => (Normal (None, Done), s)
  | Some slot =>
      match fuel with
      | 0 => (OutOfFuel, s)
      | S fuel' =>
          match slot with
          | None => iter_loop fuel' (S index) s
          | Some (ref, token) =>
              let value := deref_value ref s in
              if ToBoolean value
              then (Normal (Some value, Running (S index)), s)
              else (tokens_delete ref;;
                    registry_unregister (Some token);;
                    iter_loop fuel' (S index)) s
          end
      end
  end.

(** [[Symbol.iterator]()] : a generator suspended at its start. *)
Definition iterator : Gen := Running 0.

(** One [next()] of a generator: the element it yields, if any, and
    the generator afterwards. *)
Definition next (g : Gen) : M (option JSValue * Gen) :=
  match g with
  | Done => mret (None, Done)
  | Running index => λ s, iter_loop (length (tokens s) - index) index s
  end.

(** [for (const value of this) body], with the local variables of the
    body threaded through [acc]. *)
Fixpoint for_of {A : Type} (fuel : nat) (g : Gen)
    (body : JSValue → A → M A) (acc : A) : M A :=
  match fuel with
  | 0 => λ s, (OutOfFuel, s)
  | S fuel' =>
      step ← next g;
      match step.1 with
      | None => mret acc
      | Some value =>
          acc' ← body value acc;
          for_of fuel' step.2 body acc'
      end
  end.

(** [get size()] *)
Definition size : M nat := λ s,
  for_of (S (length (tokens s))) iterator (λ _ size, mret (size + 1)) 0 s.

(** [clear() { for (const value of this) this.delete(value); }] *)
Definition clear : M unit := λ s,
  for_of (S (length (tokens s))) iterator (λ value _, delete value;; mret tt) tt s.

(** One [next()] of a generator made by [*entries()]. *)
Definition entries_next (g : Gen) : M (option (JSValue * JSValue) * Gen) :=
  step ← next g;
  mret ((λ value, (value, value)) <$> step.1, step.2).

(** A caller running the default iteration to its end ([[...set]]). *)
Definition iterate : M (list JSValue) := λ s,
  for_of (S (length (tokens s))) iterator (λ value acc, mret (acc ++ [value])) [] s.

(** A caller running [entries()] to its end. *)
Definition entries : M (list (JSValue * JSValue)) := λ s,
  for_of (S (length (tokens s))) iterator
         (λ value acc, mret (acc ++ [(value, value)])) [] s.

(** [constructor(iterable)], on the fields of a new instance. *)
Fixpoint constructor (iterable : list JSValue) : M unit :=
  match iterable with
  | [] => mret tt
  | entry :: rest => add entry;; constructor rest
  end.

(** The callback given to [new FinalizationRegistry]:
    [(ref) => this.#tokens.delete(ref)]. *)
Definition cleanup (ref : WeakRef) : M unit :=
  tokens_delete ref.

(** [forEach(cb, thisArg)]:
    [for (const value of this) cb.call(thisArg, value, value, this)].
    The callback is any function of the host: it is given [thisArg], the
    value twice, and the container, which is the state it runs in; [acc]
    carries what the callback keeps outside the container. A callback
    may add elements, which are then visited too, so the loop has no
    bound of its own: [fuel] bounds the number of calls. *)
Definition forEach {T A : Type} (fuel : nat)
    (cb : T → JSValue → JSValue → A → M A) (thisArg : T) (acc : A) : M A :=
  for_of fuel iterator (λ value acc, cb thisArg value value acc) acc.

(** A caller running a generator made by [*entries()] to its end, one
    [next()] after the other. *)
Fixpoint entries_drain (fuel : nat) (g : Gen) (acc : list (JSValue * JSValue))
    : M (list (JSValue * JSValue)) :=
  match fuel with
  | 0 => λ s, (OutOfFuel, s)
  | S fuel' =>
      step ← entries_next g;
      match step.1 with
      | None => mret acc
      | Some entry => entries_drain fuel' step.2 (acc ++ [entry])
      end
  end.

(** A caller running a generator it holds to its end. *)
Definition drain (g : Gen) : M (list JSValue) := λ s,
  for_of (S (length (tokens s))) g (λ value acc, mret (acc ++ [value])) [] s.

End IterableWeakSet.

(** ** The host's side: reclamation and finalization *)

(** The element [a] is reclaimed: every [WeakRef] to it is emptied, and
    the [WeakMap] loses the key. Cells of the registry that watch [a]
    are from then on due for their callback. *)
Definition reclaim (a : Ref) (s : State) : State :=
  with_refs (delete a (refs s)) (with_collected ({[a]} ∪ collected s) s).

(** The host runs the cleanup of the [k]-th cell of the registry: the cell
    leaves the registry and the callback gets its held value. *)
Definition finalize (k : nat) (s : State) : option (Completion unit * State) :=
  match registry s !! k with
  | Some c =>
      if decide (cell_target c ∈ collected s)
      then Some (IterableWeakSet.cleanup (cell_held c)
                   (with_registry (delete k (registry s)) s))
      else None
  | None => None
  end.

(** ** Executions *)

(** What can happen to a container: calls of its public operations, and
    the host reclaiming an element or finalizing a cell. A [CallNext]
    resumes a generator of the default iteration ([keys()] and [values()]
    are the same function, [entries()] and [forEach] resume it likewise,
    and whatever their caller or callback does in between is made of
    other events); the caller may hold generators at any index. *)
Inductive Event : Type :=
  | CallHas (value : JSValue)
  | CallAdd (value : JSValue)
  | CallDelete (value : JSValue)
  | CallSize
  | CallClear
  | CallNext (g : Gen)
  | Reclaim (a : Ref)
  | Finalize (k : nat).

(** A caller can only pass what it holds, and what it holds is not
    reclaimed. *)
Definition held_by_caller (v : JSValue) (s : State) : bool :=
  match v with
  | VRef a => bool_decide (a ∉ collected s)
  | _ => true
  end.

(** The state a call leaves, whether it returned or threw. *)
Definition after {A : Type} (r : Completion A * State) : option State :=
  match r with
  | (OutOfFuel, _) => None
  | (_, s) => Some s
  end.

(** One event; [None] when the event cannot happen in [s]. *)
Definition exec (e : Event) (s : State) : option State :=
  match e with
  | CallHas v =>
      if held_by_caller v s then after (IterableWeakSet.has v s) else None
  | CallAdd v =>
      if held_by_caller v s then after (IterableWeakSet.add v s) else None
  | CallDelete v =>
      if held_by_caller v s then after (IterableWeakSet.delete v s) else None
  | CallSize => after (IterableWeakSet.size s)
  | CallClear => after (IterableWeakSet.clear s)
  | CallNext g => after (IterableWeakSet.next g s)
  | Reclaim a =>
      if decide (a ∈ collected s) then None else Some (reclaim a s)
  | Finalize k => finalize k s ≫= after
  end.

Fixpoint run (trace : list Event) (s : State) : option State :=
  match trace with
  | [] => Some s
  | e :: trace' => exec e s ≫= run trace'
  end.

Definition reachable (s : State) : Prop :=
  ∃ trace, run trace init = Some s.

(** Whether an event is a run of the registry's callback. *)
Definition is_finalize (e : Event) : bool :=
  match e with
  | Finalize _ => true
  | _ => false
  end.

(** ** Views of a state used in the statements *)

(** The keys of a [Map], in order. *)
Definition map_keys (m : list Slot) : list WeakRef :=
  omap (fmap fst) m.

(** What the iterator yields for a [WeakRef]: its target when that is
    there and [if (value)] lets it pass. *)
Definition yielded (ref : WeakRef) (s : State) : option Ref :=
  deref ref s ≫= λ a, if ToBoolean (VRef a) then Some a else None.

(** What the iterator yields for a slot of [#tokens]: nothing for an
    emptied slot, for a stale entry and for an entry of an element that
    is not truthy, the element for the others. *)
Definition slot_element (s : State) (slot : Slot) : option Ref :=
  slot ≫= λ entry, yielded entry.1 s.

Definition elements (s : State) : list (option Ref) :=
  slot_element s <$> tokens s.

(** The elements an iteration yields, in the order of [#tokens]. *)
Definition live_view (s : State) : list Ref :=
  omap id (elements s).

(** An entry is stale when its [WeakRef] resolves to nothing. *)
Definition stale (s : State) (entry : WeakRef * Token) : Prop :=
  deref entry.1 s = None.

#[global] Instance stale_dec s entry : Decision (stale s entry).
Proof. unfold stale. apply _. Defined.

(** The element an entry was made for, as a value. *)
Definition element_of (entry : WeakRef * Token) : JSValue :=
  VRef (wr_target entry.1).

(** The entries of [#tokens] for which the iterator yields. *)
Definition yielded_entries (s : State) : list (WeakRef * Token) :=
  filter (λ entry, is_Some (yielded entry.1 s)) (omap id (tokens s)).

(** The [else] branch of the iterator, on the entry [(ref, token)]. *)
Definition prune (ref : WeakRef) (token : Token) (s : State) : State :=
  with_registry (registry_unregister_cells token (registry s))
    (with_tokens (map_delete ref (tokens s)) s).

(** [s'] is [s] after some entries that yield nothing were pruned. *)
Inductive prunes : State → State → Prop :=
  | prunes_refl s : prunes s s
  | prunes_step s ref token s' :
      Some (ref, token) ∈ tokens s →
      yielded ref s = None →
      prunes (prune ref token s) s' →
      prunes s s'.

(** The first element in a list of resolved slots whose first slot has
    the index [index], with the generator suspended after it. *)
Fixpoint first_live (l : list (option Ref)) (index : nat) : option JSValue * Gen :=
  match l with
  | [] => (None, Done)
  | Some a :: _ => (Some (VRef a), Running (S index))
  | None :: l' => first_live l' (S index)
  end.

(** The invariant of the three fields. An element that is not truthy can
    be in [#refs] without an entry in [#tokens]: the iterator prunes its
    entry as if it were stale. *)
Record wf (s : State) : Prop :=
  { wf_refs : ∀ a r, refs s !! a = Some r →
      (a ∉ collected s) ∧ (wr_target r = a) ∧
      (ToBoolean (VRef a) = true → is_Some (map_get r (tokens s)));
    wf_tokens : ∀ r t, Some (r, t) ∈ tokens s →
      (wr_id r < next_id s) ∧ (t < next_id s) ∧
      (wr_target r ∉ collected s → refs s !! wr_target r = Some r);
    wf_keys : NoDup (map_keys (tokens s));
    wf_registry : ∀ c, c ∈ registry s →
      cell_target c = wr_target (cell_held c) ∧
      map_get (cell_held c) (tokens s) = Some (cell_token c);
    wf_cells : NoDup (cell_held <$> registry s) }.

(** From [s] to [s'], identities were only allocated, and every key of
    [#tokens] that is new was allocated on the way. *)
Definition extends (s s' : State) : Prop :=
  next_id s ≤ next_id s' ∧
  ∀ k, k ∈ map_keys (tokens s') → k ∈ map_keys (tokens s) ∨ next_id s ≤ wr_id k.

(** The state after [add(value)] on an element [a] that is not present. *)
Definition added (a : Ref) (s : State) : State :=
  let ref := {| wr_id := S (next_id s); wr_target := a |} in
  {| collected := collected s;
     next_id := S (S (next_id s));
     refs := <[a := ref]> (refs s);
     tokens := map_set ref (next_id s) (tokens s);
     registry := registry s ++
       [{| cell_target := a; cell_held := ref; cell_token := next_id s |}] |}.

(** The state after [delete(value)] on an element [a] whose [WeakRef]
    [ref] is under the token [token]. *)
Definition deleted (a : Ref) (ref : WeakRef) (token : Token) (s : State) : State :=
  {| collected := collected s;
     next_id := next_id s;
     refs := delete a (refs s);
     tokens := map_delete ref (tokens s);
     registry := registry_unregister_cells token (registry s) |}.

(** A state for the examples: the objects [1] and [2] were added, then
    [1] was reclaimed and no finalization ran, so the entry of [1] is
    stale. *)
Definition example_state : State :=
  reclaim (Object 1) (added (Object 2) (added (Object 1) init)).

(** A state with an element that is there and not truthy: the object [1]
    and the [document.all] of identity [2] were added. *)
Definition falsy_state : State :=
  added (HTMLDDA 2) (added (Object 1) init).

(** The [WeakRef] that [falsy_state] holds for its [document.all]. *)
Definition falsy_ref : WeakRef :=
  {| wr_id := 3; wr_target := HTMLDDA 2 |}.

(** [falsy_state] after a traversal pruned the entry of that element. *)
Definition falsy_pruned : State :=
  prune falsy_ref 2 falsy_state.

(** The slots a generator still has to read. *)
Definition remaining (g : Gen) (s : State) : list (option Ref) :=
  match g with
  | Running index => drop index (elements s)
  | Done => []
  end.

(** No entry of [#tokens] is stale. *)
Definition no_stale (s : State) : Prop :=
  ∀ entry, Some entry ∈ tokens s → ¬ stale s entry.

(** The iterator yields for every entry of [#tokens]. *)
Definition all_yield (s : State) : Prop :=
  ∀ entry, Some entry ∈ tokens s → is_Some (yielded entry.1 s).



(** The cell that [add] registers for the entry [(ref, token)]. *)
Definition cell_of (entry : WeakRef * Token) : Cell :=
  {| cell_target := wr_target entry.1; cell_held := entry.1; cell_token := entry.2 |}.

(** Every entry of [#tokens] has its cell in [#registry], and no token
    serves two entries. *)
Record subscribed (s : State) : Prop :=
  { sub_cells : ∀ entry, Some entry ∈ tokens s → cell_of entry ∈ registry s;
    sub_tokens : NoDup (snd <$> omap id (tokens s)) }.

(** [example_state] after the registry's callback ran for its cell 0,
    the cell of the reclaimed [1]. *)
Definition example_finalized : State :=
  with_tokens (map_delete {| wr_id := 1; wr_target := Object 1 |} (tokens example_state))
    (with_registry (delete 0 (registry example_state)) example_state).

(** ** The ordered set of the specification *)

(** The operations of the order property. *)
Inductive SetOp : Type :=
  | OpAdd (a : Ref)
  | OpDelete (a : Ref).

Definition op_element (op : SetOp) : Ref :=
  match op with
  | OpAdd a => a
  | OpDelete a => a
  end.

Definition op_event (op : SetOp) : Event :=
  match op with
  | OpAdd a => CallAdd (VRef a)
  | OpDelete a => CallDelete (VRef a)
  end.

(** Relative insertion order, in the words of the specification: an
    element that is added goes last unless it is present, an element that
    is deleted leaves, and the others keep their order. *)
Definition insertion_order_step (l : list JSValue) (op : SetOp) : list JSValue :=
  match op with
  | OpAdd a => if decide (VRef a ∈ l) then l else l ++ [VRef a]
  | OpDelete a => filter (λ v, v ≠ VRef a) l
  end.

Definition insertion_order_model (ops : list SetOp) (l : list JSValue) : list JSValue :=
  foldl insertion_order_step l ops.

(** ** Facts about the host's [Map] *)

Lemma map_get_None k m : map_get k m = None ↔ k ∉ map_keys m.
Proof.
  unfold map_keys. induction m as [|[[k' v]|] m IH]; simpl.
  - split; [intros _; apply not_elem_of_nil | done].
  - case_decide; subst.
    + split; [done | intros Hk; exfalso; apply Hk; left].
    + rewrite IH, not_elem_of_cons. split; [by intros ?; split | by intros [_ ?]].
  - done.
Qed.

Lemma map_get_Some k v m : map_get k m = Some v → Some (k, v) ∈ m.
Proof.
  induction m as [|[[k' v']|] m IH]; simpl; [done | |].
  - case_decide; subst.
    + intros [= ->]. left.
    + intros Hg. right. auto.
  - intros Hg. right. auto.
Qed.

Lemma map_get_elem k v m :
  NoDup (map_keys m) → Some (k, v) ∈ m → map_get k m = Some v.
Proof.
  unfold map_keys. induction m as [|[[k' v']|] m IH]; simpl; intros Hnd Hin.
  - by apply elem_of_nil in Hin.
  - apply NoDup_cons in Hnd as [Hk Hnd]. apply elem_of_cons in Hin as [[= <- <-]|Hin].
    + by rewrite decide_True.
    + case_decide; subst; [|auto]. exfalso. apply Hk.
      apply list_elem_of_omap. by exists (Some (k, v)).
  - apply elem_of_cons in Hin as [|Hin]; [done | auto].
Qed.

Lemma map_keys_elem k m : k ∈ map_keys m ↔ ∃ v, Some (k, v) ∈ m.
Proof.
  unfold map_keys. rewrite list_elem_of_omap. split.
  - intros ([[k' v]|] & Hin & Heq); [|done]. simpl in Heq. injection Heq as ->. eauto.
  - intros [v Hin]. by exists (Some (k, v)).
Qed.

Lemma map_get_is_Some k m : is_Some (map_get k m) ↔ k ∈ map_keys m.
Proof.
  destruct (map_get k m) as [v|] eqn:Hget.
  - split; [intros _ | eauto]. apply map_keys_elem. eauto using map_get_Some.
  - apply map_get_None in Hget. split; [by intros [? ?] | done].
Qed.

Lemma length_map_delete k m : length (map_delete k m) = length m.
Proof.
  induction m as [|[[k' v]|] m IH]; simpl; [done | |].
  - case_decide; simpl; congruence.
  - congruence.
Qed.

Lemma map_delete_elem k k' v m :
  Some (k', v) ∈ map_delete k m → Some (k', v) ∈ m.
Proof.
  induction m as [|[[k'' v']|] m IH]; simpl; [done | |].
  - case_decide; rewrite !elem_of_cons; naive_solver.
  - rewrite !elem_of_cons; naive_solver.
Qed.

Lemma map_delete_elem_ne k k' v m :
  k' ≠ k → Some (k', v) ∈ m → Some (k', v) ∈ map_delete k m.
Proof.
  intros Hne. induction m as [|[[k'' v']|] m IH]; simpl; [done | |].
  - case_decide; rewrite !elem_of_cons; naive_solver.
  - rewrite !elem_of_cons; naive_solver.
Qed.

Lemma map_keys_delete_sublist k m : map_keys (map_delete k m) `sublist_of` map_keys m.
Proof.
  unfold map_keys. induction m as [|[[k' v]|] m IH]; simpl; [done | |].
  - case_decide; simpl.
    + by apply sublist_cons.
    + by apply sublist_skip.
  - done.
Qed.

Lemma map_keys_delete_notin k m :
  NoDup (map_keys m) → k ∉ map_keys (map_delete k m).
Proof.
  unfold map_keys. induction m as [|[[k' v]|] m IH]; simpl; intros Hnd.
  - apply not_elem_of_nil.
  - apply NoDup_cons in Hnd as [Hk Hnd]. case_decide; subst; simpl; [done|].
    rewrite not_elem_of_cons. auto.
  - auto.
Qed.

Lemma map_get_delete_ne k k' m : k' ≠ k → map_get k' (map_delete k m) = map_get k' m.
Proof.
  intros Hne. induction m as [|[[k'' v]|] m IH]; simpl; [done | |].
  - case_decide; subst; simpl.
    + by rewrite decide_False.
    + by rewrite IH.
  - done.
Qed.

Lemma map_delete_index k v i m :
  NoDup (map_keys m) → m !! i = Some (Some (k, v)) → map_delete k m = <[i := None]> m.
Proof.
  unfold map_keys. revert i. induction m as [|[[k' v']|] m IH]; intros i Hnd Hi; [done | |].
  - simpl in Hnd. apply NoDup_cons in Hnd as [Hk Hnd]. destruct i as [|i]; simpl in *.
    + simplify_eq. by rewrite decide_True.
    + case_decide; subst.
      * exfalso. apply Hk. apply list_elem_of_omap. exists (Some (k, v)).
        split; [|done]. by eapply list_elem_of_lookup_2.
      * f_equal. by apply IH.
  - destruct i as [|i]; simpl in *; [done|]. f_equal. by apply IH.
Qed.

Lemma map_keys_app m1 m2 : map_keys (m1 ++ m2) = map_keys m1 ++ map_keys m2.
Proof. unfold map_keys. apply omap_app. Qed.


(** ** Facts about the monad *)

Lemma bind_normal {A B} (m : M A) (f : A → M B) s a s' :
  m s = (Normal a, s') → (m ≫= f) s = f a s'.
Proof. unfold mbind, M_bind. by intros ->. Qed.

(** ** Pruning keeps what the entries resolve to *)

Lemma slot_element_collected s s' slot :
  collected s' = collected s → slot_element s' slot = slot_element s slot.
Proof.
  intros Hc. destruct slot as [[r t]|]; [|done].
  simpl. unfold yielded, deref. by rewrite Hc.
Qed.

Lemma elements_prune ref token s :
  yielded ref s = None → elements (prune ref token s) = elements s.
Proof.
  intros Hd. unfold elements. simpl.
  induction (tokens s) as [|[[k v]|] m IH]; simpl; [done | |].
  - case_decide as Hk; subst; simpl.
    + by rewrite Hd.
    + by f_equal.
  - by f_equal.
Qed.

Lemma prunes_elements s s' : prunes s s' → elements s' = elements s.
Proof.
  induction 1 as [|s r t s' Hin Hd _ IH]; [done|].
  rewrite IH. by apply elements_prune.
Qed.

Lemma prunes_fields s s' :
  prunes s s' →
  collected s' = collected s ∧ next_id s' = next_id s ∧ refs s' = refs s ∧
  length (tokens s') = length (tokens s).
Proof.
  induction 1 as [|s r t s' Hin Hd _ (-> & -> & -> & ->)]; [done|].
  simpl. by rewrite length_map_delete.
Qed.

Lemma prunes_trans s1 s2 s3 : prunes s1 s2 → prunes s2 s3 → prunes s1 s3.
Proof.
  induction 1 as [|s r t s' Hin Hd _ IH]; [done|].
  intros H3. eapply prunes_step; eauto.
Qed.

Lemma prunes_live_view s s' : prunes s s' → live_view s' = live_view s.
Proof. intros H. unfold live_view. by rewrite (prunes_elements _ _ H). Qed.

(** ** The generator *)

Lemma drop_lookup_cons {A} (l : list A) i x :
  l !! i = Some x → drop i l = x :: drop (S i) l.
Proof.
  revert i. induction l as [|y l IH]; intros [|i] Hi; simplify_eq/=; [done|].
  by apply IH.
Qed.

Lemma first_live_spec l i :
  match first_live (drop i l) i with
  | (None, g) => g = Done ∧ omap id (drop i l) = []
  | (Some v, g) => ∃ j a,
      v = VRef a ∧ g = Running (S j) ∧ i ≤ j ∧ l !! j = Some (Some a) ∧
      omap id (drop i l) = a :: omap id (drop (S j) l)
  end.
Proof.
  remember (length l - i) as n eqn:Hn. revert i Hn.
  induction n as [|n IH]; intros i Hn.
  - rewrite drop_ge by lia. done.
  - destruct (l !! i) as [x|] eqn:Hi.
    2:{ apply lookup_ge_None in Hi. lia. }
    rewrite (drop_lookup_cons _ _ _ Hi). destruct x as [a|]; simpl.
    + exists i, a. done.
    + specialize (IH (S i) ltac:(lia)).
      destruct (first_live (drop (S i) l) (S i)) as [[v|] g]; [|done].
      destruct IH as (j & a & -> & -> & Hle & Hj & Hom).
      exists j, a. repeat split; [lia | done | done].
Qed.

(** [if (value)] on the value of [ref.deref()]. *)
Lemma ToBoolean_deref_value r s :
  match yielded r s with
  | Some a => deref_value r s = VRef a ∧ ToBoolean (deref_value r s) = true
  | None => ToBoolean (deref_value r s) = false
  end.
Proof.
  unfold yielded, deref_value. destruct (deref r s) as [a|]; simpl; [|done].
  by destruct a.
Qed.

Lemma iter_loop_unfold fuel i s :
  IterableWeakSet.iter_loop (S fuel) i s
  = match tokens s !! i with
    | None => (Normal (None, Done), s)
    | Some None => IterableWeakSet.iter_loop fuel (S i) s
    | Some (Some (r, t)) =>
        match yielded r s with
        | Some a => (Normal (Some (VRef a), Running (S i)), s)
        | None => IterableWeakSet.iter_loop fuel (S i) (prune r t s)
        end
    end.
Proof.
  simpl. destruct (tokens s !! i) as [[[r t]|]|]; [|done|done].
  pose proof (ToBoolean_deref_value r s) as Hv.
  destruct (yielded r s) as [a|].
  - destruct Hv as [-> ->]. done.
  - by rewrite Hv.
Qed.

(** One resumption of the generator ends, prunes only entries for which
    nothing is yielded, and yields the first element that is. *)
Lemma iter_loop_spec fuel i s :
  length (tokens s) - i ≤ fuel →
  ∃ s', prunes s s' ∧
    IterableWeakSet.iter_loop fuel i s
    = (Normal (first_live (drop i (elements s)) i), s').
Proof.
  revert i s. induction fuel as [|fuel IH]; intros i s Hfuel.
  - exists s. split; [constructor|]. simpl.
    destruct (tokens s !! i) as [slot|] eqn:Hi.
    + apply lookup_lt_Some in Hi. lia.
    + apply lookup_ge_None in Hi. rewrite drop_ge; [done|].
      unfold elements. by rewrite length_fmap.
  - rewrite iter_loop_unfold. destruct (tokens s !! i) as [slot|] eqn:Hi.
    2:{ exists s. split; [constructor|].
        apply lookup_ge_None in Hi. rewrite drop_ge; [done|].
        unfold elements. by rewrite length_fmap. }
    assert (elements s !! i = Some (slot_element s slot)) as He.
    { unfold elements. by rewrite list_lookup_fmap, Hi. }
    rewrite (drop_lookup_cons _ _ _ He).
    destruct slot as [[r t]|]; simpl.
    + destruct (yielded r s) as [a|] eqn:Hd; simpl.
      * exists s. split; [constructor | done].
      * destruct (IH (S i) (prune r t s)) as (s' & Hp & Heq).
        { simpl. rewrite length_map_delete. lia. }
        exists s'. split.
        { eapply prunes_step; eauto. by eapply list_elem_of_lookup_2. }
        rewrite elements_prune in Heq by done. exact Heq.
    + apply IH. lia.
Qed.

Lemma next_spec i s :
  ∃ s', prunes s s' ∧
    IterableWeakSet.next (Running i) s
    = (Normal (first_live (drop i (elements s)) i), s').
Proof. apply iter_loop_spec. lia. Qed.

(** A loop over the container whose body does not touch the container. *)
Lemma for_of_pure {A} (f : JSValue → A → A) fuel i acc s :
  length (tokens s) - i < fuel →
  ∃ s', prunes s s' ∧
    IterableWeakSet.for_of fuel (Running i) (λ v acc, mret (f v acc)) acc s
    = (Normal (foldl (λ acc a, f (VRef a) acc) acc
                 (omap id (drop i (elements s)))), s').
Proof.
  revert i acc s. induction fuel as [|fuel IH]; intros i acc s Hfuel; [lia|].
  destruct (next_spec i s) as (s1 & Hp1 & Hnext).
  simpl. rewrite (bind_normal _ _ _ _ _ Hnext).
  pose proof (first_live_spec (elements s) i) as Hfl.
  destruct (first_live (drop i (elements s)) i) as [[v|] g]; simpl.
  - destruct Hfl as (j & a & -> & -> & Hle & Hj & Hom).
    apply lookup_lt_Some in Hj. unfold elements in Hj. rewrite length_fmap in Hj.
    destruct (prunes_fields _ _ Hp1) as (_ & _ & _ & Hlen).
    destruct (IH (S j) (f (VRef a) acc) s1) as (s' & Hp & Heq); [lia|].
    exists s'. split; [by eapply prunes_trans|].
    unfold mbind at 1, M_bind at 1, mret at 1, M_ret at 1.
    rewrite Heq, Hom, (prunes_elements _ _ Hp1). done.
  - destruct Hfl as [-> Hom]. exists s1. split; [done|]. by rewrite Hom.
Qed.

Lemma foldl_count {A} (l : list A) (k : nat) :
  foldl (λ n _, n + 1) k l = k + length l.
Proof. revert k. induction l as [|x l IH]; intros k; simpl; [lia|]. rewrite IH. lia. Qed.

Lemma foldl_collect {A B} (g : A → B) (l : list A) (acc : list B) :
  foldl (λ acc a, acc ++ [g a]) acc l = acc ++ (g <$> l).
Proof.
  revert acc. induction l as [|x l IH]; intros acc; simpl.
  - by rewrite app_nil_r.
  - by rewrite IH, <- app_assoc.
Qed.

Lemma size_spec s :
  ∃ s', prunes s s' ∧ IterableWeakSet.size s = (Normal (length (live_view s)), s').
Proof.
  destruct (for_of_pure (λ _ n, n + 1) (S (length (tokens s))) 0 0 s) as (s' & Hp & Heq);
    [lia|].
  exists s'. split; [done|]. unfold IterableWeakSet.size, IterableWeakSet.iterator.
  rewrite Heq, foldl_count. done.
Qed.

Lemma iterate_spec s :
  ∃ s', prunes s s' ∧ IterableWeakSet.iterate s = (Normal (VRef <$> live_view s), s').
Proof.
  destruct (for_of_pure (λ v acc, acc ++ [v]) (S (length (tokens s))) 0 [] s)
    as (s' & Hp & Heq); [lia|].
  exists s'. split; [done|]. unfold IterableWeakSet.iterate, IterableWeakSet.iterator.
  rewrite Heq. by rewrite (foldl_collect VRef).
Qed.

Lemma entries_spec s :
  ∃ s', prunes s s' ∧
    IterableWeakSet.entries s = (Normal ((λ a, (VRef a, VRef a)) <$> live_view s), s').
Proof.
  destruct (for_of_pure (λ v acc, acc ++ [(v, v)]) (S (length (tokens s))) 0 [] s)
    as (s' & Hp & Heq); [lia|].
  exists s'. split; [done|]. unfold IterableWeakSet.entries, IterableWeakSet.iterator.
  rewrite Heq. by rewrite (foldl_collect (λ a, (VRef a, VRef a))).
Qed.

(** ** The methods, case by case *)

Lemma has_spec v s :
  IterableWeakSet.has v s = (Normal (weakmap_has v (refs s)), s).
Proof. done. Qed.

Lemma add_present a r s :
  refs s !! a = Some r → IterableWeakSet.add (VRef a) s = (Normal This, s).
Proof.
  intros Hr. unfold IterableWeakSet.add, IterableWeakSet.has, refs_has, gets,
    mbind, M_bind, mret, M_ret. simpl.
  rewrite bool_decide_eq_true_2 by eauto. done.
Qed.

Lemma add_absent a s :
  refs s !! a = None → IterableWeakSet.add (VRef a) s = (Normal This, added a s).
Proof.
  intros Hr. unfold IterableWeakSet.add, IterableWeakSet.has, refs_has, gets,
    mbind, M_bind, mret, M_ret. simpl.
  rewrite bool_decide_eq_false_2 by (rewrite Hr; by intros [? ?]). done.
Qed.

Lemma add_primitive v s :
  canBeHeldWeakly v = false →
  IterableWeakSet.add v s = (Throw InvalidKeyType, with_next_id (S (next_id s)) s).
Proof. by destruct v. Qed.

Lemma delete_absent v s :
  weakmap_get v (refs s) = None → IterableWeakSet.delete v s = (Normal false, s).
Proof.
  intros Hr. unfold IterableWeakSet.delete, refs_get, gets, mbind, M_bind, mret, M_ret.
  by rewrite Hr.
Qed.

Lemma delete_present a r t s :
  refs s !! a = Some r → map_get r (tokens s) = Some t →
  IterableWeakSet.delete (VRef a) s = (Normal true, deleted a r t s).
Proof.
  intros Hr Ht. unfold IterableWeakSet.delete, refs_get, gets, mbind, M_bind, mret, M_ret.
  simpl. rewrite Hr. simpl. by rewrite Ht.
Qed.

Lemma delete_broken a r s :
  refs s !! a = Some r → map_get r (tokens s) = None →
  IterableWeakSet.delete (VRef a) s
  = (Throw InvalidUnregisterToken, with_refs (delete a (refs s)) s).
Proof.
  intros Hr Ht. unfold IterableWeakSet.delete, refs_get, gets, mbind, M_bind, mret, M_ret.
  simpl. rewrite Hr. simpl. by rewrite Ht.
Qed.

(** ** The invariant is kept *)

Lemma wf_init : wf init.
Proof.
  split; simpl.
  - intros a r Hr. by rewrite lookup_empty in Hr.
  - intros r t Hin. by apply elem_of_nil in Hin.
  - constructor.
  - intros c Hin. by apply elem_of_nil in Hin.
  - constructor.
Qed.

Lemma wf_fresh_key s r :
  wf s → next_id s ≤ wr_id r → map_get r (tokens s) = None.
Proof.
  intros Hwf Hid. apply map_get_None. intros [t Hin]%map_keys_elem.
  apply (wf_tokens _ Hwf) in Hin as (Hlt & _). lia.
Qed.

Lemma wf_alloc s n : wf s → next_id s ≤ n → wf (with_next_id n s).
Proof.
  intros Hwf Hn. split; simpl.
  - apply (wf_refs _ Hwf).
  - intros r t Hin. destruct (wf_tokens _ Hwf r t Hin) as (? & ? & ?).
    repeat split; [lia | lia | done].
  - apply (wf_keys _ Hwf).
  - apply (wf_registry _ Hwf).
  - apply (wf_cells _ Hwf).
Qed.

(** Emptying the slot of a key that no cell holds and that [#refs] holds
    for no truthy element. *)
Lemma wf_remove_key s r cells :
  wf s → (∀ a, refs s !! a = Some r → ToBoolean (VRef a) = false) →
  cells `sublist_of` registry s → (∀ c, c ∈ cells → cell_held c ≠ r) →
  wf (with_registry cells (with_tokens (map_delete r (tokens s)) s)).
Proof.
  intros Hwf Hr Hcells Hheld. split; simpl.
  - intros a r' Hr'. destruct (wf_refs _ Hwf a r' Hr') as (? & ? & Hlog).
    split_and!; [done | done |]. intros Ha. rewrite map_get_delete_ne; [auto|].
    intros ->. rewrite (Hr a Hr') in Ha. done.
  - intros r' t Hin. apply map_delete_elem in Hin. by apply (wf_tokens _ Hwf).
  - eapply sublist_NoDup; [apply (wf_keys _ Hwf) | apply map_keys_delete_sublist].
  - intros c Hin. rewrite map_get_delete_ne by auto.
    apply (wf_registry _ Hwf). by apply (sublist_subseteq _ _ Hcells).
  - eapply sublist_NoDup; [apply (wf_cells _ Hwf) | by apply fmap_sublist].
Qed.

Lemma yielded_Some r s a :
  yielded r s = Some a ↔
  wr_target r = a ∧ (a ∉ collected s) ∧ ToBoolean (VRef a) = true.
Proof.
  unfold yielded, deref. case_decide as Hc; simpl.
  - split; [done|]. by intros (<- & ? & _).
  - destruct (ToBoolean (VRef (wr_target r))) eqn:Hb; split.
    + by intros [= <-].
    + by intros (<- & _ & _).
    + done.
    + intros (<- & _ & Ha). congruence.
Qed.

Lemma yielded_None r s :
  yielded r s = None ↔
  wr_target r ∈ collected s ∨ ToBoolean (VRef (wr_target r)) = false.
Proof.
  unfold yielded, deref. case_decide as Hc; simpl.
  - split; [by left | done].
  - destruct (ToBoolean (VRef (wr_target r))); split; [done | | by right | done].
    by intros [?|?].
Qed.

Lemma stale_yields_nothing r s : deref r s = None → yielded r s = None.
Proof. unfold yielded. by intros ->. Qed.

Lemma unyielded_in_refs s r a :
  wf s → yielded r s = None → refs s !! a = Some r → ToBoolean (VRef a) = false.
Proof.
  intros Hwf Hd Hr. destruct (wf_refs _ Hwf a r Hr) as (Ha & Ht & _).
  apply yielded_None in Hd as [Hc|Hb]; rewrite Ht in *; done.
Qed.

Lemma unregister_sublist t cells :
  registry_unregister_cells t cells `sublist_of` cells.
Proof. apply sublist_filter. Qed.

(** The cells that [unregister] leaves are not those of the entry whose
    token it was given. *)
Lemma unregister_held s r t c :
  wf s → map_get r (tokens s) = Some t →
  c ∈ registry_unregister_cells t (registry s) → cell_held c ≠ r.
Proof.
  intros Hwf Ht [Htok Hin]%list_elem_of_filter Heq.
  destruct (wf_registry _ Hwf c Hin) as [_ Hget]. rewrite Heq in Hget. congruence.
Qed.

Lemma wf_prune s r t :
  wf s → Some (r, t) ∈ tokens s → yielded r s = None → wf (prune r t s).
Proof.
  intros Hwf Hin Hd. apply wf_remove_key; [done | | apply unregister_sublist |].
  - intros a. by apply unyielded_in_refs.
  - intros c. apply (unregister_held s); [done|].
    apply map_get_elem; [apply (wf_keys _ Hwf) | done].
Qed.

Lemma prunes_wf s s' : prunes s s' → wf s → wf s'.
Proof. induction 1; [done|]. intros Hwf. auto using wf_prune. Qed.

Lemma map_get_app_l k v m m' : map_get k m = Some v → map_get k (m ++ m') = Some v.
Proof.
  induction m as [|[[k' v']|] m IH]; simpl; [done | |].
  - case_decide; [done | auto].
  - auto.
Qed.

Lemma map_get_app_fresh k v m : map_get k m = None → map_get k (m ++ [Some (k, v)]) = Some v.
Proof.
  induction m as [|[[k' v']|] m IH]; simpl.
  - by rewrite decide_True.
  - case_decide; [done | auto].
  - auto.
Qed.

Lemma NoDup_fmap_delete {A B} (f : A → B) (l : list A) k x y :
  NoDup (f <$> l) → l !! k = Some x → y ∈ delete k l → f y ≠ f x.
Proof.
  revert k. induction l as [|z l IH]; intros k Hnd Hk Hy; [done|].
  rewrite fmap_cons in Hnd. apply NoDup_cons in Hnd as [Hz Hnd].
  destruct k as [|k]; simpl in *.
  - injection Hk as ->. intros Heq. apply Hz. rewrite <- Heq.
    by apply list_elem_of_fmap_2.
  - apply elem_of_cons in Hy as [->|Hy]; [|by eapply IH].
    intros Heq. apply Hz. rewrite Heq. apply list_elem_of_fmap_2.
    by eapply list_elem_of_lookup_2.
Qed.

Lemma wf_added a s :
  wf s → a ∉ collected s → refs s !! a = None → wf (added a s).
Proof.
  intros Hwf Ha Hr. unfold added.
  set (r := {| wr_id := S (next_id s); wr_target := a |}).
  assert (map_get r (tokens s) = None) as Hfresh.
  { apply wf_fresh_key; [done | simpl; lia]. }
  unfold map_set. rewrite Hfresh. split; simpl.
  - intros a' r' Hr'. destruct (decide (a' = a)) as [->|Hne].
    + rewrite lookup_insert_eq in Hr'. injection Hr' as <-.
      split_and!; [done | done |]. intros _.
      apply map_get_is_Some. rewrite map_keys_app.
      apply elem_of_app. right. simpl. left.
    + rewrite lookup_insert_ne in Hr' by done.
      destruct (wf_refs _ Hwf a' r' Hr') as (? & ? & Hk).
      split_and!; [done | done |]. intros Hk'%Hk.
      apply map_get_is_Some. apply map_get_is_Some in Hk'.
      rewrite map_keys_app. apply elem_of_app. by left.
  - intros r' t' [Hin | Hin%list_elem_of_singleton]%elem_of_app.
    + destruct (wf_tokens _ Hwf r' t' Hin) as (? & ? & Hlive).
      repeat split; [lia | lia |]. intros Hc. specialize (Hlive Hc).
      destruct (decide (wr_target r' = a)) as [Heq|Hne].
      * rewrite Heq in Hlive. congruence.
      * by rewrite lookup_insert_ne.
    + injection Hin as -> ->. simpl.
      repeat split; [lia | lia |]. intros _. by rewrite lookup_insert_eq.
  - rewrite map_keys_app. apply NoDup_app. repeat split.
    + apply (wf_keys _ Hwf).
    + intros k Hk [->|Hn]%elem_of_cons; [|by apply elem_of_nil in Hn].
      by apply map_get_None in Hfresh.
    + apply NoDup_singleton.
  - intros c [Hin | ->%list_elem_of_singleton]%elem_of_app.
    + destruct (wf_registry _ Hwf c Hin) as [? ?]. split; [done|].
      by apply map_get_app_l.
    + simpl. split; [done|]. by apply map_get_app_fresh.
  - rewrite fmap_app. apply NoDup_app. split_and!.
    + apply (wf_cells _ Hwf).
    + intros k (c & -> & Hin)%list_elem_of_fmap [Heq|Hn]%elem_of_cons;
        [|by apply elem_of_nil in Hn].
      destruct (wf_registry _ Hwf c Hin) as [_ Hget]. simpl in Heq.
      rewrite Heq in Hget. congruence.
    + apply NoDup_singleton.
Qed.

Lemma wf_deleted a r t s :
  wf s → refs s !! a = Some r → map_get r (tokens s) = Some t →
  wf (deleted a r t s).
Proof.
  intros Hwf Hr Ht. destruct (wf_refs _ Hwf a r Hr) as (Ha & Htgt & Hk).
  split; simpl.
  - intros a' r' Hr'. apply lookup_delete_Some in Hr' as [Hne Hr'].
    destruct (wf_refs _ Hwf a' r' Hr') as (? & ? & ?).
    split_and!; [done | done |]. intros Hb.
    rewrite map_get_delete_ne; [auto|]. congruence.
  - intros r' t' Hin.
    assert (r' ≠ r) as Hne.
    { intros ->. eapply (map_keys_delete_notin r); [apply (wf_keys _ Hwf)|].
      apply map_keys_elem. eauto. }
    apply map_delete_elem in Hin.
    destruct (wf_tokens _ Hwf r' t' Hin) as (? & ? & Hlive).
    repeat split; [done | done |]. intros Hc. specialize (Hlive Hc).
    rewrite lookup_delete_ne; [done|]. intros Heq. rewrite <- Heq in Hlive. congruence.
  - eapply sublist_NoDup; [apply (wf_keys _ Hwf) | apply map_keys_delete_sublist].
  - intros c Hin. rewrite map_get_delete_ne by (by eapply unregister_held).
    apply (wf_registry _ Hwf). by apply list_elem_of_filter in Hin as [_ ?].
  - eapply sublist_NoDup; [apply (wf_cells _ Hwf)|].
    apply fmap_sublist, unregister_sublist.
Qed.

(** [delete] on an element whose entry is gone from [#tokens]: the state
    it leaves when [unregister] throws. *)
Lemma wf_delete_broken a r s :
  wf s → refs s !! a = Some r → map_get r (tokens s) = None →
  wf (with_refs (delete a (refs s)) s).
Proof.
  intros Hwf Hr Ht. destruct (wf_refs _ Hwf a r Hr) as (Ha & Htgt & Hk).
  split; simpl.
  - intros a' r' Hr'. apply lookup_delete_Some in Hr' as [Hne Hr'].
    by apply (wf_refs _ Hwf).
  - intros r' t' Hin. destruct (wf_tokens _ Hwf r' t' Hin) as (? & ? & Hlive).
    split_and!; [done | done |]. intros Hc. specialize (Hlive Hc).
    rewrite lookup_delete_ne; [done|]. intros Heq. rewrite <- Heq in Hlive.
    assert (r' = r) as -> by congruence.
    apply map_get_None in Ht. apply Ht, map_keys_elem. eauto.
  - apply (wf_keys _ Hwf).
  - apply (wf_registry _ Hwf).
  - apply (wf_cells _ Hwf).
Qed.

Lemma wf_reclaim a s : wf s → wf (reclaim a s).
Proof.
  intros Hwf. split; simpl.
  - intros a' r' Hr'. apply lookup_delete_Some in Hr' as [Hne Hr'].
    destruct (wf_refs _ Hwf a' r' Hr') as (? & ? & ?).
    split_and!; [set_solver | done | done].
  - intros r' t' Hin. destruct (wf_tokens _ Hwf r' t' Hin) as (? & ? & Hlive).
    repeat split; [done | done |]. intros Hc.
    rewrite lookup_delete_ne by set_solver. apply Hlive. set_solver.
  - apply (wf_keys _ Hwf).
  - apply (wf_registry _ Hwf).
  - apply (wf_cells _ Hwf).
Qed.

Lemma finalize_spec k s r :
  finalize k s = Some r →
  ∃ c, registry s !! k = Some c ∧ cell_target c ∈ collected s ∧
       r = (Normal tt, with_tokens (map_delete (cell_held c) (tokens s))
                         (with_registry (delete k (registry s)) s)).
Proof.
  unfold finalize. destruct (registry s !! k) as [c|]; [|done].
  case_decide; [|done]. intros [= <-]. eauto.
Qed.

Lemma wf_finalize k s r : wf s → finalize k s = Some r → wf r.2.
Proof.
  intros Hwf (c & Hk & Hc & ->)%finalize_spec. simpl.
  apply (wf_remove_key s (cell_held c) (delete k (registry s))); [done | | |].
  - intros a Hr. destruct (wf_refs _ Hwf a _ Hr) as (Ha & Htgt & _).
    apply list_elem_of_lookup_2 in Hk. apply (wf_registry _ Hwf) in Hk as [Hk _].
    exfalso. congruence.
  - apply sublist_delete.
  - intros c' Hin. eapply NoDup_fmap_delete; [apply (wf_cells _ Hwf) | done | done].
Qed.

(** ** Keys are never reused *)

Lemma extends_refl s : extends s s.
Proof. split; [done | auto]. Qed.

Lemma extends_trans s1 s2 s3 : extends s1 s2 → extends s2 s3 → extends s1 s3.
Proof.
  intros [Hn12 Hk12] [Hn23 Hk23]. split; [lia|].
  intros k Hk. destruct (Hk23 k Hk) as [Hk2|Hid]; [|right; lia]. auto.
Qed.

Lemma extends_shrink s s' :
  next_id s ≤ next_id s' → map_keys (tokens s') ⊆ map_keys (tokens s) → extends s s'.
Proof. intros Hn Hk. split; [done|]. intros k Hin. left. by apply Hk. Qed.

Lemma map_keys_delete_subseteq k m : map_keys (map_delete k m) ⊆ map_keys m.
Proof. apply sublist_subseteq, map_keys_delete_sublist. Qed.

Lemma map_keys_update k v m : map_keys (map_update k v m) = map_keys m.
Proof.
  unfold map_keys. induction m as [|[[k' v']|] m IH]; simpl; [done | |].
  - case_decide; simpl; [done | f_equal; exact IH].
  - done.
Qed.

Lemma map_keys_set k v m x : x ∈ map_keys (map_set k v m) → x ∈ map_keys m ∨ x = k.
Proof.
  unfold map_set. destruct (map_get k m).
  - rewrite map_keys_update. auto.
  - rewrite map_keys_app. intros [?|Hin]%elem_of_app; [auto|].
    right. by apply list_elem_of_singleton in Hin.
Qed.

Lemma prunes_extends s s' : prunes s s' → extends s s'.
Proof.
  induction 1 as [|s r t s' _ _ _ IH]; [apply extends_refl|].
  eapply extends_trans; [|exact IH].
  apply extends_shrink; [done | apply map_keys_delete_subseteq].
Qed.

Lemma added_extends a s : extends s (added a s).
Proof.
  split; simpl; [lia|]. intros k [?| ->]%map_keys_set; [auto|]. right. simpl. lia.
Qed.

Lemma deleted_extends a r t s : extends s (deleted a r t s).
Proof. apply extends_shrink; [done | apply map_keys_delete_subseteq]. Qed.

(** ** [clear] *)

Lemma elements_lookup_Some s j a :
  elements s !! j = Some (Some a) →
  ∃ r t, tokens s !! j = Some (Some (r, t)) ∧ wr_target r = a ∧ a ∉ collected s.
Proof.
  unfold elements. rewrite list_lookup_fmap.
  destruct (tokens s !! j) as [[[r t]|]|]; [| done | done].
  simpl. intros [= (<- & ? & _)%yielded_Some]. eauto.
Qed.

Lemma live_entry_in_refs s r t :
  wf s → Some (r, t) ∈ tokens s → wr_target r ∉ collected s →
  refs s !! wr_target r = Some r ∧ map_get r (tokens s) = Some t.
Proof.
  intros Hwf Hin Hc. split.
  - by apply (wf_tokens _ Hwf r t Hin).
  - apply map_get_elem; [apply (wf_keys _ Hwf) | done].
Qed.

Lemma clear_loop fuel i s :
  wf s → length (tokens s) - i < fuel →
  ∃ s', IterableWeakSet.for_of fuel (Running i)
          (λ value _, IterableWeakSet.delete value;; mret tt) tt s = (Normal tt, s') ∧
        wf s' ∧ extends s s'.
Proof.
  revert i s. induction fuel as [|fuel IH]; intros i s Hwf Hfuel; [lia|].
  destruct (next_spec i s) as (s1 & Hp1 & Hnext).
  simpl. rewrite (bind_normal _ _ _ _ _ Hnext).
  pose proof (first_live_spec (elements s) i) as Hfl.
  destruct (prunes_fields _ _ Hp1) as (Hc1 & Hn1 & Hr1 & Hlen).
  pose proof (prunes_wf _ _ Hp1 Hwf) as Hwf1.
  destruct (first_live (drop i (elements s)) i) as [[v|] g]; simpl.
  - destruct Hfl as (j & a & -> & -> & Hle & Hj & _).
    pose proof Hj as Hjlt. apply lookup_lt_Some in Hjlt.
    unfold elements in Hjlt. rewrite length_fmap in Hjlt.
    rewrite <- (prunes_elements _ _ Hp1) in Hj.
    apply elements_lookup_Some in Hj as (r & t & Hslot & <- & Hc).
    apply list_elem_of_lookup_2 in Hslot.
    destruct (live_entry_in_refs _ _ _ Hwf1 Hslot Hc) as [Hr Ht].
    pose proof (delete_present _ _ _ _ Hr Ht) as Hdel.
    destruct (IH (S j) (deleted (wr_target r) r t s1)) as (s' & Heq & Hwf' & Hext).
    { by apply wf_deleted. }
    { simpl. rewrite length_map_delete. lia. }
    exists s'. split; [|split; [done|]].
    + rewrite (bind_normal _ _ _ _ _ (bind_normal _ _ _ _ _ Hdel)).
      unfold mret at 1, M_ret at 1. exact Heq.
    + eapply extends_trans; [by apply prunes_extends|].
      eapply extends_trans; [apply deleted_extends | exact Hext].
  - destruct Hfl as [-> _]. exists s1. auto using prunes_extends.
Qed.

Lemma clear_spec s :
  wf s → ∃ s', IterableWeakSet.clear s = (Normal tt, s') ∧ wf s' ∧ extends s s'.
Proof. intros Hwf. apply clear_loop; [done | lia]. Qed.

(** ** Every execution keeps the invariant *)

Lemma exec_wf e s s' : wf s → exec e s = Some s' → wf s' ∧ extends s s'.
Proof.
  intros Hwf. destruct e as [v|v|v| | |g|a|k]; simpl.
  - destruct (held_by_caller v s); [|done]. intros [= <-]. auto using extends_refl.
  - destruct (held_by_caller v s) eqn:Hheld; [|done].
    destruct (canBeHeldWeakly v) eqn:Hweak.
    + destruct v as [| | | | |a]; try done. simpl in Hheld.
      apply bool_decide_eq_true in Hheld.
      destruct (refs s !! a) as [r|] eqn:Hr.
      * rewrite (add_present _ _ _ Hr). intros [= <-]. auto using extends_refl.
      * rewrite (add_absent _ _ Hr). intros [= <-].
        auto using wf_added, added_extends.
    + rewrite (add_primitive _ _ Hweak). intros [= <-]. split.
      * apply wf_alloc; [done | simpl; lia].
      * apply extends_shrink; simpl; [lia | done].
  - destruct (held_by_caller v s); [|done].
    destruct (weakmap_get v (refs s)) as [r|] eqn:Hr.
    + destruct v as [| | | | |a]; try done. simpl in Hr.
      destruct (map_get r (tokens s)) as [t|] eqn:Ht.
      * rewrite (delete_present _ _ _ _ Hr Ht). intros [= <-].
        eauto using wf_deleted, deleted_extends.
      * rewrite (delete_broken _ _ _ Hr Ht). intros [= <-].
        split; [by eapply wf_delete_broken|]. by apply extends_shrink.
    + rewrite (delete_absent _ _ Hr). intros [= <-]. auto using extends_refl.
  - destruct (size_spec s) as (s1 & Hp & ->). intros [= <-].
    eauto using prunes_wf, prunes_extends.
  - destruct (clear_spec s Hwf) as (s1 & -> & ? & ?). by intros [= <-].
  - destruct g as [i|].
    + destruct (next_spec i s) as (s1 & Hp & ->). intros [= <-].
      eauto using prunes_wf, prunes_extends.
    + intros [= <-]. auto using extends_refl.
  - case_decide; [done|]. intros [= <-]. split; [by apply wf_reclaim|].
    apply extends_shrink; done.
  - destruct (finalize k s) as [r|] eqn:Hf; [|done]. simpl.
    pose proof (wf_finalize _ _ _ Hwf Hf) as Hwf'.
    apply finalize_spec in Hf as (c & _ & _ & ->). intros [= <-]. split; [done|].
    apply extends_shrink; [done | apply map_keys_delete_subseteq].
Qed.

Lemma run_wf trace s s' : wf s → run trace s = Some s' → wf s' ∧ extends s s'.
Proof.
  revert s. induction trace as [|e trace IH]; simpl; intros s Hwf.
  - intros [= <-]. auto using extends_refl.
  - destruct (exec e s) as [s1|] eqn:He; [|done]. simpl.
    destruct (exec_wf _ _ _ Hwf He) as [Hwf1 Hext1]. intros Hrun.
    destruct (IH _ Hwf1 Hrun) as [? ?]. eauto using extends_trans.
Qed.

(** Every call a caller can make is a step: no loop of the model is cut
    short. *)
Lemma exec_call_enabled e s :
  wf s →
  match e with
  | CallHas v | CallAdd v | CallDelete v => held_by_caller v s = true
  | CallSize | CallClear | CallNext _ => True
  | Reclaim a => a ∉ collected s
  | Finalize k => ∃ c, registry s !! k = Some c ∧ cell_target c ∈ collected s
  end →
  is_Some (exec e s).
Proof.
  intros Hwf. destruct e as [v|v|v| | |g|a|k]; simpl.
  - by intros ->.
  - intros ->. by destruct (IterableWeakSet.add v s) as [[]] eqn:Hadd;
      [| | destruct v as [| | | | |a]; try done; simpl in Hadd;
           destruct (refs s !! a) as [r|] eqn:Hr;
           [rewrite (add_present _ _ _ Hr) in Hadd
           |rewrite (add_absent _ _ Hr) in Hadd]].
  - intros ->. destruct (weakmap_get v (refs s)) as [r|] eqn:Hr.
    + destruct v as [| | | | |a]; try done. simpl in Hr.
      destruct (map_get r (tokens s)) as [t|] eqn:Ht.
      * by rewrite (delete_present _ _ _ _ Hr Ht).
      * by rewrite (delete_broken _ _ _ Hr Ht).
    + by rewrite (delete_absent _ _ Hr).
  - intros _. by destruct (size_spec s) as (s1 & _ & ->).
  - intros _. by destruct (clear_spec s Hwf) as (s1 & -> & _).
  - intros _. destruct g as [i|]; [|done].
    by destruct (next_spec i s) as (s1 & _ & ->).
  - intros Ha. by rewrite decide_False.
  - intros (c & Hk & Hc). unfold finalize. rewrite Hk. by rewrite decide_True.
Qed.

Lemma reachable_wf s : reachable s → wf s.
Proof. intros [trace Hrun]. by apply (run_wf trace init s wf_init). Qed.

(** ** How [add] and [delete] change what iteration yields *)

Lemma live_view_alt s : live_view s = omap (slot_element s) (tokens s).
Proof.
  unfold live_view, elements. induction (tokens s) as [|slot m IH]; [done|].
  change (omap id (slot_element s <$> slot :: m))
    with (match slot_element s slot with
          | Some x => x :: omap id (slot_element s <$> m)
          | None => omap id (slot_element s <$> m) end).
  by rewrite IH.
Qed.

Lemma deref_Some r s a : deref r s = Some a ↔ wr_target r = a ∧ a ∉ collected s.
Proof.
  unfold deref. case_decide; split.
  - done.
  - intros [<- ?]. done.
  - intros [= <-]. done.
  - intros [<- ?]. done.
Qed.

Lemma live_view_elem s a :
  a ∈ live_view s ↔ ∃ r t, Some (r, t) ∈ tokens s ∧ yielded r s = Some a.
Proof.
  rewrite live_view_alt, list_elem_of_omap. split.
  - intros ([[r t]|] & Hin & Hse); [|done]. eauto.
  - intros (r & t & Hin & Hd). by exists (Some (r, t)).
Qed.

(** What an iteration yields: the truthy elements of [#refs]. *)
Lemma has_live_view s a :
  wf s → a ∈ live_view s ↔ is_Some (refs s !! a) ∧ ToBoolean (VRef a) = true.
Proof.
  intros Hwf. rewrite live_view_elem. split.
  - intros (r & t & Hin & (<- & Hc & Hb)%yielded_Some).
    split; [|done]. exists r. by apply (wf_tokens _ Hwf r t Hin).
  - intros [[r Hr] Hb]. destruct (wf_refs _ Hwf a r Hr) as (Hc & Htgt & Hlog).
    destruct (Hlog Hb) as [t Ht].
    exists r, t. split; [by apply map_get_Some | by apply yielded_Some].
Qed.

Lemma live_view_added a s :
  wf s → a ∉ collected s →
  live_view (added a s)
  = live_view s ++ (if ToBoolean (VRef a) then [a] else []).
Proof.
  intros Hwf Hc. rewrite !live_view_alt. simpl. unfold map_set.
  rewrite wf_fresh_key by (done || simpl; lia).
  rewrite omap_app. f_equal.
  change (omap (slot_element (added a s))
            [Some ({| wr_id := S (next_id s); wr_target := a |}, next_id s)])
    with (match yielded {| wr_id := S (next_id s); wr_target := a |} (added a s) with
          | Some x => [x] | None => [] end).
  unfold yielded, deref. simpl. rewrite decide_False by done. simpl.
  by destruct (ToBoolean (VRef a)).
Qed.

Lemma filter_all {A} (P : A → Prop) `{!∀ x, Decision (P x)} (l : list A) :
  (∀ x, x ∈ l → P x) → filter P l = l.
Proof.
  induction l as [|x l IH]; intros HP; [done|].
  rewrite filter_cons_True by (apply HP; left). f_equal. apply IH.
  intros y Hy. apply HP. by right.
Qed.

Lemma omap_slot_cons s slot m :
  omap (slot_element s) (slot :: m)
  = match slot_element s slot with
    | Some x => x :: omap (slot_element s) m
    | None => omap (slot_element s) m
    end.
Proof. done. Qed.

Lemma omap_map_delete s r a m :
  NoDup (map_keys m) → wr_target r = a →
  (∀ r' t', Some (r', t') ∈ m → yielded r' s = Some a → r' = r) →
  omap (slot_element s) (map_delete r m)
  = filter (λ x, x ≠ a) (omap (slot_element s) m).
Proof.
  intros Hnd Htgt. induction m as [|[[k v]|] m IH]; intros Huniq; [done | |].
  - change (map_keys (Some (k, v) :: m)) with (k :: map_keys m) in Hnd.
    apply NoDup_cons in Hnd as [Hk Hnd]. specialize (IH Hnd).
    cbn [map_delete]. case_decide as Hkr.
    + subst k.
      assert (filter (λ x, x ≠ a) (omap (slot_element s) m) = omap (slot_element s) m) as Hid.
      { apply filter_all. intros x Hx ->. apply list_elem_of_omap in Hx as (slot & Hin & Hse).
        destruct slot as [[r' t']|]; [|done]. simpl in Hse.
        assert (r' = r) as -> by (eapply (Huniq r' t'); [by right | done]).
        apply Hk. apply map_keys_elem. eauto. }
      rewrite !omap_slot_cons. cbn [slot_element mbind option_bind fst].
      destruct (yielded r s) as [x|] eqn:Hd; [|by rewrite Hid].
      apply yielded_Some in Hd as [Hx _].
      rewrite filter_cons_False by (intros Hne; apply Hne; congruence). by rewrite Hid.
    + rewrite !omap_slot_cons. cbn [slot_element mbind option_bind fst].
      rewrite IH by (intros r' t' Hin; apply (Huniq r' t'); by right).
      destruct (yielded k s) as [x|] eqn:Hd; [|done].
      rewrite filter_cons_True; [done|]. intros ->. apply Hkr.
      eapply (Huniq k v); [left | done].
  - cbn [map_delete]. rewrite !omap_slot_cons. cbn [slot_element mbind option_bind].
    apply IH; [done|]. intros r' t' Hin. apply (Huniq r' t'). by right.
Qed.

Lemma live_view_deleted a r t s :
  wf s → refs s !! a = Some r →
  live_view (deleted a r t s) = filter (λ x, x ≠ a) (live_view s).
Proof.
  intros Hwf Hr. destruct (wf_refs _ Hwf a r Hr) as (Hc & Htgt & _).
  rewrite !live_view_alt. simpl.
  rewrite <- (omap_map_delete s r a); [| apply (wf_keys _ Hwf) | done |].
  - done.
  - intros r' t' Hin (<- & Hc' & _)%yielded_Some.
    destruct (wf_tokens _ Hwf r' t' Hin) as (_ & _ & Hlive). specialize (Hlive Hc').
    congruence.
Qed.

Lemma live_view_absent a s :
  wf s → refs s !! a = None → filter (λ x, x ≠ a) (live_view s) = live_view s.
Proof.
  intros Hwf Hr. apply filter_all. intros x Hx ->.
  apply (has_live_view _ _ Hwf) in Hx as [[r' Hr'] _]. congruence.
Qed.

Lemma live_view_falsy a s :
  wf s → ToBoolean (VRef a) = false →
  filter (λ x, x ≠ a) (live_view s) = live_view s.
Proof.
  intros Hwf Hb. apply filter_all. intros x Hx ->.
  apply (has_live_view _ _ Hwf) in Hx as [_ Hx]. congruence.
Qed.

(** ** Stale entries *)

Lemma length_yielded_entries s : length (yielded_entries s) = length (live_view s).
Proof.
  rewrite live_view_alt. unfold yielded_entries.
  induction (tokens s) as [|[[r t]|] m IH]; [done | |].
  - rewrite omap_slot_cons. change (omap id (Some (r, t) :: m)) with ((r, t) :: omap id m).
    cbn [slot_element mbind option_bind fst].
    destruct (yielded r s) as [a|] eqn:Hd.
    + rewrite filter_cons_True; [simpl; by rewrite IH|].
      simpl. by rewrite Hd.
    + rewrite filter_cons_False; [done|]. simpl. rewrite Hd. by intros [? ?].
  - by rewrite omap_slot_cons.
Qed.

Lemma stale_not_live s entry a :
  stale s entry → a ∈ live_view s → VRef a ≠ element_of entry.
Proof.
  unfold stale, deref, element_of. case_decide as Hc; [|done]. intros _.
  intros (r & t & _ & (_ & Ha & _)%yielded_Some)%live_view_elem [= ->]. done.
Qed.

Lemma first_live_elem l i v g :
  first_live (drop i l) i = (Some v, g) → ∃ a, v = VRef a ∧ a ∈ omap id l.
Proof.
  intros Heq. pose proof (first_live_spec l i) as Hfl. rewrite Heq in Hfl.
  destruct Hfl as (j & a & -> & _ & _ & Hj & _). exists a. split; [done|].
  apply list_elem_of_omap. exists (Some a). split; [|done].
  by eapply list_elem_of_lookup_2.
Qed.

(** ** One step of the traversal *)

Lemma next_step_yield s i r t a :
  tokens s !! i = Some (Some (r, t)) → yielded r s = Some a →
  IterableWeakSet.next (Running i) s = (Normal (Some (VRef a), Running (S i)), s).
Proof.
  intros Hi Hd. pose proof (lookup_lt_Some _ _ _ Hi) as Hlt.
  unfold IterableWeakSet.next.
  replace (length (tokens s) - i) with (S (length (tokens s) - S i)) by lia.
  by rewrite iter_loop_unfold, Hi, Hd.
Qed.

Lemma next_step_prune s i r t :
  tokens s !! i = Some (Some (r, t)) → yielded r s = None →
  IterableWeakSet.next (Running i) s
  = IterableWeakSet.next (Running (S i)) (prune r t s).
Proof.
  intros Hi Hd. pose proof (lookup_lt_Some _ _ _ Hi) as Hlt.
  unfold IterableWeakSet.next.
  replace (length (tokens s) - i) with (S (length (tokens s) - S i)) by lia.
  rewrite iter_loop_unfold, Hi, Hd. simpl. by rewrite length_map_delete.
Qed.

Lemma next_step_empty s i :
  tokens s !! i = Some None →
  IterableWeakSet.next (Running i) s = IterableWeakSet.next (Running (S i)) s.
Proof.
  intros Hi. pose proof (lookup_lt_Some _ _ _ Hi) as Hlt.
  unfold IterableWeakSet.next.
  replace (length (tokens s) - i) with (S (length (tokens s) - S i)) by lia.
  by rewrite iter_loop_unfold, Hi.
Qed.

Lemma unregister_absent t cells :
  (∀ c, c ∈ cells → cell_token c ≠ t) → registry_unregister_cells t cells = cells.
Proof. intros H. by apply filter_all. Qed.

Lemma unregister_gone t cells c :
  c ∈ registry_unregister_cells t cells → cell_token c ≠ t.
Proof. by intros [? _]%list_elem_of_filter. Qed.

Lemma map_get_set k v m : map_get k (map_set k v m) = Some v.
Proof.
  unfold map_set. destruct (map_get k m) as [v'|] eqn:Hg.
  - induction m as [|[[k' v'']|] m IH]; simpl in *; [done | |].
    + case_decide; simpl.
      * by rewrite decide_True.
      * rewrite decide_False by done. auto.
    + auto.
  - induction m as [|[[k' v'']|] m IH]; simpl in *.
    + by rewrite decide_True.
    + case_decide; [done|]. auto.
    + auto.
Qed.

(** ** [clear] leaves nothing to iterate *)

Lemma first_live_gap l i v j :
  first_live (drop i l) i = (Some v, Running (S j)) →
  ∀ k, i ≤ k → k < j → l !! k = Some None.
Proof.
  remember (length l - i) as n eqn:Hn. revert i Hn.
  induction n as [|n IH]; intros i Hn.
  - by rewrite drop_ge by lia.
  - destruct (l !! i) as [x|] eqn:Hi.
    2:{ apply lookup_ge_None in Hi. lia. }
    rewrite (drop_lookup_cons _ _ _ Hi). destruct x as [a|]; simpl.
    + intros [= _ <-] k ? ?. lia.
    + intros Hfl k Hik Hkj. destruct (decide (k = i)) as [->|Hne]; [done|].
      apply (IH (S i)); [lia | done | lia | done].
Qed.

Lemma elements_deleted a r t t' j s :
  wf s → tokens s !! j = Some (Some (r, t)) →
  elements (deleted a r t' s) = <[j := None]> (elements s).
Proof.
  intros Hwf Hj. unfold elements. simpl.
  rewrite (map_delete_index r t j) by (apply (wf_keys _ Hwf) || done).
  by rewrite list_fmap_insert.
Qed.

Lemma clear_loop_empties fuel i s s' :
  wf s → length (tokens s) - i < fuel →
  (∀ k a, elements s !! k = Some (Some a) → i ≤ k) →
  IterableWeakSet.for_of fuel (Running i)
    (λ value _, IterableWeakSet.delete value;; mret tt) tt s = (Normal tt, s') →
  live_view s' = [].
Proof.
  revert i s. induction fuel as [|fuel IH]; intros i s Hwf Hfuel Hinv; [lia|].
  destruct (next_spec i s) as (s1 & Hp1 & Hnext).
  simpl. rewrite (bind_normal _ _ _ _ _ Hnext).
  pose proof (first_live_spec (elements s) i) as Hfl.
  destruct (prunes_fields _ _ Hp1) as (Hc1 & Hn1 & Hr1 & Hlen).
  pose proof (prunes_wf _ _ Hp1 Hwf) as Hwf1.
  pose proof (prunes_elements _ _ Hp1) as Hel1.
  destruct (first_live (drop i (elements s)) i) as [[v|] g] eqn:Hfirst; simpl.
  - destruct Hfl as (j & a & -> & -> & Hle & Hj & _).
    pose proof (first_live_gap _ _ _ _ Hfirst) as Hgap.
    pose proof Hj as Hjlt. apply lookup_lt_Some in Hjlt.
    pose proof Hjlt as Hjlen. unfold elements in Hjlen. rewrite length_fmap in Hjlen.
    rewrite <- Hel1 in Hj.
    apply elements_lookup_Some in Hj as (r & t & Hslot & <- & Hc).
    pose proof (list_elem_of_lookup_2 _ _ _ Hslot) as Hin.
    destruct (live_entry_in_refs _ _ _ Hwf1 Hin Hc) as [Hr Ht].
    pose proof (delete_present _ _ _ _ Hr Ht) as Hdel.
    rewrite (bind_normal _ _ _ _ _ (bind_normal _ _ _ _ _ Hdel)).
    unfold mret at 1, M_ret at 1.
    apply IH.
    + by apply wf_deleted.
    + simpl. rewrite length_map_delete. lia.
    + intros k a. rewrite (elements_deleted _ _ _ _ _ _ Hwf1 Hslot), Hel1.
      destruct (decide (k = j)) as [->|Hne].
      * by rewrite list_lookup_insert_eq.
      * rewrite list_lookup_insert_ne by done. intros Hk.
        pose proof (Hinv _ _ Hk) as Hik.
        destruct (decide (k < j)) as [Hlt|]; [|lia].
        rewrite (Hgap k Hik Hlt) in Hk. done.
  - destruct Hfl as [-> Hnone]. intros [= <-].
    rewrite (prunes_live_view _ _ Hp1). unfold live_view.
    destruct (omap id (elements s)) as [|a l] eqn:Hlive; [done|]. exfalso.
    assert (a ∈ omap id (elements s)) as Ha by (rewrite Hlive; left).
    apply list_elem_of_omap in Ha as (x & [k Hk]%list_elem_of_lookup_1 & Hx).
    simpl in Hx. subst x. pose proof (Hinv _ _ Hk) as Hik.
    assert (a ∈ omap id (drop i (elements s))) as Hdrop.
    { apply list_elem_of_omap. exists (Some a). split; [|done].
      apply list_elem_of_lookup. exists (k - i). rewrite lookup_drop.
      by replace (i + (k - i)) with k by lia. }
    rewrite Hnone in Hdrop. by apply elem_of_nil in Hdrop.
Qed.

Lemma clear_empties s :
  wf s → ∃ s', IterableWeakSet.clear s = (Normal tt, s') ∧ live_view s' = [].
Proof.
  intros Hwf. destruct (clear_spec s Hwf) as (s' & Hclear & _).
  exists s'. split; [done|].
  eapply (clear_loop_empties _ 0 s); [done | | | exact Hclear]; [lia|]. intros; lia.
Qed.

(** * The claims *)

Lemma yielded_entry_elem s entry :
  entry ∈ yielded_entries s ↔ Some entry ∈ tokens s ∧ is_Some (yielded entry.1 s).
Proof.
  unfold yielded_entries. rewrite list_elem_of_filter, list_elem_of_omap. split.
  - intros [Hy (slot & Hin & Hslot)]. simpl in Hslot. by subst slot.
  - intros [Hin Hy]. split; [done|]. by exists (Some entry).
Qed.

(** C1. After any sequence of calls, reclamations and finalizations
    (finalizations may be absent from the sequence altogether), a stale
    entry of the Reference Log is not what a [next()] of the default
    iterator yields, is not in a full iteration nor in [entries()], is
    not reported by [has], and is not among the entries that [size]
    counts: [size] is the number of entries the iterator yields for, as
    is the length of a full iteration, and none of those is stale. What a
    full iteration yields are elements of entries that are not stale.
    Each of these calls returns normally. *)
Theorem stale_entry_never_observed trace s :
  run trace init = Some s →
  (∀ entry, Some entry ∈ tokens s → stale s entry →
     (∀ g, ∃ item g' s', IterableWeakSet.next g s = (Normal (item, g'), s') ∧
                         item ≠ Some (element_of entry)) ∧
     (∃ l s', IterableWeakSet.iterate s = (Normal l, s') ∧ element_of entry ∉ l) ∧
     (∃ l s', IterableWeakSet.entries s = (Normal l, s') ∧
              ∀ p, p ∈ l → p.1 ≠ element_of entry ∧ p.2 ≠ element_of entry) ∧
     IterableWeakSet.has (element_of entry) s = (Normal false, s) ∧
     entry ∉ yielded_entries s) ∧
  (∃ s', IterableWeakSet.size s = (Normal (length (yielded_entries s)), s')) ∧
  (∀ entry, entry ∈ yielded_entries s → Some entry ∈ tokens s ∧ ¬ stale s entry) ∧
  (∃ l s', IterableWeakSet.iterate s = (Normal l, s') ∧
           length l = length (yielded_entries s) ∧
           ∀ v, v ∈ l → ∃ entry, Some entry ∈ tokens s ∧ ¬ stale s entry ∧
                                  v = element_of entry).
Proof.
  intros Hrun. destruct (run_wf _ _ _ wf_init Hrun) as [Hwf _]. split.
  - intros entry Hin Hstale. split_and!.
    + intros [i|].
      * destruct (next_spec i s) as (s' & _ & Heq).
        destruct (first_live (drop i (elements s)) i) as [item g'] eqn:Hfl.
        exists item, g', s'. split; [done|]. intros ->.
        apply first_live_elem in Hfl as (a & Ha & Hlive).
        by eapply stale_not_live.
      * by exists None, Done, s.
    + destruct (iterate_spec s) as (s' & _ & Heq).
      exists (VRef <$> live_view s), s'. split; [done|].
      intros (a & Ha & Hlive)%list_elem_of_fmap. symmetry in Ha.
      by eapply stale_not_live.
    + destruct (entries_spec s) as (s' & _ & Heq).
      eexists _, s'. split; [exact Heq|].
      intros p (a & -> & Hlive)%list_elem_of_fmap. simpl.
      split; by eapply stale_not_live.
    + rewrite has_spec. f_equal. f_equal. unfold element_of. simpl.
      apply bool_decide_eq_false_2. intros [r Hr].
      destruct (wf_refs _ Hwf _ _ Hr) as (Hc & _ & _).
      unfold stale, deref in Hstale. by rewrite decide_False in Hstale.
    + intros [_ [a Ha]]%yielded_entry_elem.
      rewrite (stale_yields_nothing _ _ Hstale) in Ha. done.
  - split_and!.
    + destruct (size_spec s) as (s' & _ & Heq). exists s'.
      by rewrite length_yielded_entries.
    + intros entry [Hin [a Ha]]%yielded_entry_elem. split; [done|].
      intros Hstale. rewrite (stale_yields_nothing _ _ Hstale) in Ha. done.
    + destruct (iterate_spec s) as (s' & _ & Heq).
      exists (VRef <$> live_view s), s'. split_and!; [done | |].
      * by rewrite length_fmap, length_yielded_entries.
      * intros v (a & -> & (r & t & Hin & Hd)%live_view_elem)%list_elem_of_fmap.
        apply yielded_Some in Hd as (Htgt & Hc & _).
        exists (r, t). split_and!; [done | |].
        -- unfold stale, deref. simpl. rewrite Htgt. by rewrite decide_False.
        -- unfold element_of. simpl. by rewrite Htgt.
Qed.

(** C2, as the code has it. For every value that cannot be held weakly,
    in every state, [add] raises [InvalidKeyType] at once and leaves the
    three fields as they were, whereas [has] and [delete] return [false]
    without raising; in particular [add(1)] raises [InvalidKeyType]. *)
Theorem add_primitive_raises v s :
  canBeHeldWeakly v = false →
  (∃ s', IterableWeakSet.add v s = (Throw InvalidKeyType, s') ∧
         refs s' = refs s ∧ tokens s' = tokens s ∧ registry s' = registry s ∧
         collected s' = collected s) ∧
  (∃ s', IterableWeakSet.add (VNumber 1) s = (Throw InvalidKeyType, s')) ∧
  (IterableWeakSet.has v s).1 = Normal false ∧
  (IterableWeakSet.delete v s).1 = Normal false.
Proof.
  intros Hv. split; [|split; [|split]].
  - rewrite (add_primitive _ _ Hv). by eexists.
  - rewrite add_primitive by done. by eexists.
  - by destruct v.
  - by destruct v.
Qed.

(** C2, as stated, fails: on the new container [has(1)] and [delete(1)]
    return [false]; they do not raise [InvalidKeyType]. *)
Lemma has_delete_primitive_do_not_raise :
  ¬ (∀ v s, canBeHeldWeakly v = false →
       (∃ s', IterableWeakSet.has v s = (Throw InvalidKeyType, s')) ∧
       (∃ s', IterableWeakSet.add v s = (Throw InvalidKeyType, s')) ∧
       (∃ s', IterableWeakSet.delete v s = (Throw InvalidKeyType, s'))) ∧
  IterableWeakSet.has (VNumber 1) init = (Normal false, init) ∧
  IterableWeakSet.delete (VNumber 1) init = (Normal false, init).
Proof.
  split; [|done]. intros H.
  destruct (H (VNumber 1) init eq_refl) as [[s' Hhas] _]. discriminate Hhas.
Qed.

(** C3. For every value that cannot be held weakly and every state,
    [has] and [delete] return [false], raise nothing and leave the state
    as it was; [add] is the one that throws, from [new WeakRef]. *)
Theorem has_delete_primitive_false v s :
  canBeHeldWeakly v = false →
  IterableWeakSet.has v s = (Normal false, s) ∧
  IterableWeakSet.delete v s = (Normal false, s) ∧
  (∃ s', new_WeakRef v s = (Throw InvalidKeyType, s')) ∧
  (∃ s', IterableWeakSet.add v s = (Throw InvalidKeyType, s')).
Proof.
  intros Hv. destruct v; try done; simpl; eauto 10.
Qed.

(** C4, at the element that is there and not truthy. In [falsy_state],
    reached by [add] of the object [1] and of the [document.all] of
    identity [2], slot 1 of the Reference Log holds the entry of the
    latter, and its [WeakRef] dereferences to the element. The claim has
    the traversal yield it. The iterator, whose [else] branch is written
    for empty [WeakRef]s, tests [if (value)]: a [next()] in front of the
    slot yields nothing, empties the slot, cancels the subscription of an
    element that was not reclaimed, and completes; a full iteration
    yields the object [1] alone. *)
Theorem traversal_prunes_live_element :
  run [CallAdd (VRef (Object 1)); CallAdd (VRef (HTMLDDA 2))] init = Some falsy_state ∧
  tokens falsy_state !! 1 = Some (Some (falsy_ref, 2)) ∧
  deref falsy_ref falsy_state = Some (HTMLDDA 2) ∧
  IterableWeakSet.next (Running 1) falsy_state = (Normal (None, Done), falsy_pruned) ∧
  tokens falsy_pruned !! 1 = Some None ∧
  registry falsy_pruned
  = [{| cell_target := Object 1;
        cell_held := {| wr_id := 1; wr_target := Object 1 |};
        cell_token := 0 |}] ∧
  IterableWeakSet.iterate falsy_state = (Normal [VRef (Object 1)], falsy_pruned).
Proof. vm_compute. done. Qed.

#[global] Instance VRef_inj : Inj (=) (=) VRef.
Proof. by intros a b [= ->]. Qed.

Lemma filter_fmap_VRef a (l : list Ref) :
  filter (λ v, v ≠ VRef a) (VRef <$> l) = VRef <$> filter (λ x, x ≠ a) l.
Proof.
  induction l as [|x l IH]; [done|]. rewrite fmap_cons.
  destruct (decide (x = a)) as [->|Hne].
  - rewrite !filter_cons_False by (intros Hn; by apply Hn). done.
  - rewrite !filter_cons_True by congruence. rewrite fmap_cons. by f_equal.
Qed.

Lemma filter_swap {A} (P Q : A → Prop) `{!∀ x, Decision (P x)} `{!∀ x, Decision (Q x)}
    (l : list A) :
  filter P (filter Q l) = filter Q (filter P l).
Proof. rewrite !list_filter_filter. apply list_filter_iff. naive_solver. Qed.

Lemma filter_truthy_snoc (l : list JSValue) v :
  filter (λ v, ToBoolean v = true) (l ++ [v])
  = filter (λ v, ToBoolean v = true) l ++ (if ToBoolean v then [v] else []).
Proof.
  rewrite filter_app. f_equal. destruct (ToBoolean v) eqn:Hv.
  - by rewrite filter_cons_True.
  - rewrite filter_cons_False; [done|]. by rewrite Hv.
Qed.

Lemma filter_truthy_elem (l : list JSValue) v :
  ToBoolean v = true → v ∈ filter (λ v, ToBoolean v = true) l ↔ v ∈ l.
Proof. intros Hv. rewrite list_elem_of_filter. naive_solver. Qed.

(** [add] and [delete] on elements the caller holds, against the
    ordered set of the specification: the iteration is what that set
    holds without the elements that are not truthy. *)
Lemma run_ops ops s l :
  wf s → Forall (λ op, op_element op ∉ collected s) ops →
  VRef <$> live_view s = filter (λ v, ToBoolean v = true) l →
  ∃ s', run (op_event <$> ops) s = Some s' ∧ wf s' ∧
        VRef <$> live_view s'
        = filter (λ v, ToBoolean v = true) (insertion_order_model ops l).
Proof.
  revert s l. induction ops as [|op ops IH]; intros s l Hwf Hheld Hl.
  - exists s. done.
  - apply Forall_cons in Hheld as [Hop Hheld].
    assert (∃ s1, exec (op_event op) s = Some s1 ∧ wf s1 ∧
              collected s1 = collected s ∧
              VRef <$> live_view s1
              = filter (λ v, ToBoolean v = true) (insertion_order_step l op))
      as (s1 & Hexec & Hwf1 & Hc1 & Hview).
    { destruct op as [a|a]; simpl in *; rewrite bool_decide_eq_true_2 by done.
      - assert (VRef a ∈ l → ToBoolean (VRef a) = true → is_Some (refs s !! a)) as Hpresent.
        { intros Hin Hb. apply (filter_truthy_elem _ _ Hb) in Hin. rewrite <- Hl in Hin.
          apply list_elem_of_fmap_inj in Hin; [|apply _].
          by apply (has_live_view _ _ Hwf) in Hin as [? _]. }
        destruct (refs s !! a) as [r|] eqn:Hr.
        + rewrite (add_present _ _ _ Hr). exists s. split_and!; [done | done | done |].
          case_decide as Hin; [done|]. rewrite filter_truthy_snoc, Hl.
          destruct (ToBoolean (VRef a)) eqn:Hb; [|by rewrite app_nil_r].
          exfalso. apply Hin. apply (filter_truthy_elem _ _ Hb). rewrite <- Hl.
          apply list_elem_of_fmap_2. apply has_live_view; eauto.
        + rewrite (add_absent _ _ Hr). exists (added a s).
          split_and!; [done | by apply wf_added | done |].
          rewrite live_view_added by done. rewrite fmap_app.
          case_decide as Hin.
          * destruct (ToBoolean (VRef a)) eqn:Hb.
            -- destruct (Hpresent Hin eq_refl) as [? ?]. done.
            -- by rewrite fmap_nil, app_nil_r.
          * rewrite filter_truthy_snoc, Hl. by destruct (ToBoolean (VRef a)).
      - rewrite (filter_swap _ (λ v, v ≠ VRef a)), <- Hl, filter_fmap_VRef.
        destruct (refs s !! a) as [r|] eqn:Hr.
        + destruct (map_get r (tokens s)) as [t|] eqn:Ht.
          * rewrite (delete_present _ _ _ _ Hr Ht). exists (deleted a r t s).
            split_and!; [done | by apply wf_deleted | done |].
            by rewrite live_view_deleted.
          * rewrite (delete_broken _ _ _ Hr Ht).
            exists (with_refs (delete a (refs s)) s).
            split_and!; [done | by eapply wf_delete_broken | done |].
            change (live_view (with_refs (delete a (refs s)) s)) with (live_view s).
            rewrite live_view_falsy; [done | done |].
            destruct (wf_refs _ Hwf a r Hr) as (_ & _ & Hlog).
            destruct (ToBoolean (VRef a)); [|done].
            destruct (Hlog eq_refl) as [? ?]. congruence.
        + rewrite (delete_absent (VRef a) s Hr). exists s.
          split_and!; [done | done | done |]. by rewrite live_view_absent. }
    destruct (IH s1 (insertion_order_step l op) Hwf1) as (s' & Hrun & Hwf' & Hview');
      [by rewrite Hc1 | done |].
    exists s'. rewrite fmap_cons. simpl. rewrite Hexec. simpl. done.
Qed.

Lemma insertion_order_example a b c :
  a ≠ b → a ≠ c → b ≠ c →
  insertion_order_model [OpAdd a; OpAdd b; OpAdd c; OpDelete b; OpAdd b] []
  = [VRef a; VRef c; VRef b].
Proof.
  intros Hab Hac Hbc. unfold insertion_order_model. simpl.
  destruct (decide (VRef b ∈ [VRef a])) as [Hin|_]; [set_solver|]. simpl.
  destruct (decide (VRef c ∈ [VRef a; VRef b])) as [Hin|_]; [set_solver|]. simpl.
  rewrite !filter_cons, filter_nil.
  rewrite (decide_True (P := VRef a ≠ VRef b)) by congruence.
  rewrite (decide_False (P := VRef b ≠ VRef b)) by (intros Hn; by apply Hn).
  rewrite (decide_True (P := VRef c ≠ VRef b)) by congruence.
  destruct (decide (VRef b ∈ [VRef a; VRef c])) as [Hin|_]; [set_solver|]. done.
Qed.

(** C5, at an element that is there and not truthy. On a new container,
    [add] of the object [1], of the object [2] and of the [document.all]
    of identity [3], then [delete] and [add] of the object [2]: all five
    calls return, all three elements are present and none was reclaimed.
    The ordered set of the specification holds them in the order 1, 3, 2
    and the claim has a full iteration yield that; the iterator tests
    [if (value)], yields the objects [1] and [2] alone and prunes the
    entry of the third element, which [size] does not count either. *)
Theorem iteration_omits_live_element :
  ∃ s s',
    run [CallAdd (VRef (Object 1)); CallAdd (VRef (Object 2)); CallAdd (VRef (HTMLDDA 3));
         CallDelete (VRef (Object 2)); CallAdd (VRef (Object 2))] init = Some s ∧
    insertion_order_model
      [OpAdd (Object 1); OpAdd (Object 2); OpAdd (HTMLDDA 3);
       OpDelete (Object 2); OpAdd (Object 2)] []
    = [VRef (Object 1); VRef (HTMLDDA 3); VRef (Object 2)] ∧
    IterableWeakSet.has (VRef (HTMLDDA 3)) s = (Normal true, s) ∧
    collected s = ∅ ∧
    IterableWeakSet.iterate s = (Normal [VRef (Object 1); VRef (Object 2)], s') ∧
    IterableWeakSet.size s = (Normal 2, s') ∧
    map_keys (tokens s')
    = [{| wr_id := 1; wr_target := Object 1 |}; {| wr_id := 7; wr_target := Object 2 |}].
Proof.
  eexists _, _. split_and!; vm_compute; reflexivity.
Qed.

(** C6. When [has(e)] is true, [add(e)] changes nothing at all in the
    state (so the size, the membership of [e], its [WeakRef] and its
    place in the iteration stay) and returns the container. *)
Theorem add_present_is_noop e s :
  IterableWeakSet.has (VRef e) s = (Normal true, s) →
  IterableWeakSet.add (VRef e) s = (Normal This, s) ∧
  IterableWeakSet.has (VRef e) (IterableWeakSet.add (VRef e) s).2 = (Normal true, s) ∧
  IterableWeakSet.size (IterableWeakSet.add (VRef e) s).2 = IterableWeakSet.size s.
Proof.
  intros Hhas. rewrite has_spec in Hhas. injection Hhas as Hhas. simpl in Hhas.
  apply bool_decide_eq_true in Hhas as [r Hr].
  rewrite (add_present _ _ _ Hr). simpl. rewrite has_spec. simpl.
  rewrite bool_decide_eq_true_2 by eauto. done.
Qed.

(** C7, at an element that is there and not truthy. The state
    [falsy_pruned] is reached by [add] of the object [1] and of the
    [document.all] of identity [2] and a read of [size], whose traversal
    pruned the entry of the latter. There [add] of that element returns
    and [has] is true for it, as the claim says; the following [delete],
    which the claim and the method's own documentation have return
    [true], passes [undefined] to [unregister] and throws. *)
Theorem delete_throws_on_present_element :
  run [CallAdd (VRef (Object 1)); CallAdd (VRef (HTMLDDA 2)); CallSize] init
  = Some falsy_pruned ∧
  IterableWeakSet.add (VRef (HTMLDDA 2)) falsy_pruned = (Normal This, falsy_pruned) ∧
  IterableWeakSet.has (VRef (HTMLDDA 2)) falsy_pruned = (Normal true, falsy_pruned) ∧
  collected falsy_pruned = ∅ ∧
  (IterableWeakSet.delete (VRef (HTMLDDA 2)) falsy_pruned).1 = Throw InvalidUnregisterToken ∧
  IterableWeakSet.has (VRef (HTMLDDA 2))
    (IterableWeakSet.delete (VRef (HTMLDDA 2)) falsy_pruned).2
  = (Normal false, (IterableWeakSet.delete (VRef (HTMLDDA 2)) falsy_pruned).2).
Proof.
  split_and!; vm_compute; reflexivity.
Qed.

(** C8. For an element [e] that is not present, [delete(e)] returns
    [false], raises nothing and leaves the state as it was; [size] is
    therefore what it was. *)
Theorem delete_absent_is_noop e s :
  IterableWeakSet.has (VRef e) s = (Normal false, s) →
  IterableWeakSet.delete (VRef e) s = (Normal false, s) ∧
  IterableWeakSet.size (IterableWeakSet.delete (VRef e) s).2 = IterableWeakSet.size s.
Proof.
  intros Hhas. rewrite has_spec in Hhas. injection Hhas as Hhas. simpl in Hhas.
  apply bool_decide_eq_false in Hhas.
  assert (refs s !! e = None) as Hr.
  { destruct (refs s !! e); [|done]. exfalso. eauto. }
  by rewrite (delete_absent (VRef e) s Hr).
Qed.

(** C9. In every state, a full iteration returns, and a second full
    iteration run right after it, in the state the first one left
    (stale entries pruned), returns the same sequence. *)
Theorem iteration_is_restartable s :
  ∃ l s1 s2,
    IterableWeakSet.iterate s = (Normal l, s1) ∧
    IterableWeakSet.iterate s1 = (Normal l, s2).
Proof.
  destruct (iterate_spec s) as (s1 & Hp & Heq1).
  destruct (iterate_spec s1) as (s2 & _ & Heq2).
  exists (VRef <$> live_view s), s1, s2. split; [done|].
  by rewrite Heq2, (prunes_live_view _ _ Hp).
Qed.

(** C10, at an element that is there and not truthy. In the reachable
    state [falsy_pruned] the Membership Index holds the [WeakRef]
    [falsy_ref] for the [document.all] of identity [2], which was not
    reclaimed, and that [WeakRef] is no key of the Reference Log: the
    iterator pruned its entry. In [delete] the lookup of the token
    gives [undefined], against the non-null assertion put on it, and
    [unregister] throws on it. *)
Theorem refs_entry_without_log_entry :
  reachable falsy_pruned ∧
  refs falsy_pruned !! HTMLDDA 2 = Some falsy_ref ∧
  collected falsy_pruned = ∅ ∧
  deref falsy_ref falsy_pruned = Some (HTMLDDA 2) ∧
  (falsy_ref ∉ map_keys (tokens falsy_pruned)) ∧
  tokens_get falsy_ref falsy_pruned = (Normal None, falsy_pruned) ∧
  (registry_unregister None falsy_pruned).1 = Throw InvalidUnregisterToken ∧
  IterableWeakSet.delete (VRef (HTMLDDA 2)) falsy_pruned
  = (Throw InvalidUnregisterToken,
     with_refs (delete (HTMLDDA 2) (refs falsy_pruned)) falsy_pruned).
Proof.
  split_and!.
  - by exists [CallAdd (VRef (Object 1)); CallAdd (VRef (HTMLDDA 2)); CallSize].
  - vm_compute; reflexivity.
  - vm_compute; reflexivity.
  - vm_compute; reflexivity.
  - apply map_get_None. vm_compute; reflexivity.
  - vm_compute; reflexivity.
  - vm_compute; reflexivity.
  - vm_compute; reflexivity.
Qed.

(** * The theorems at work on [example_state] *)

Example example_state_run :
  run [CallAdd (VRef (Object 1)); CallAdd (VRef (Object 2)); Reclaim (Object 1)] init
  = Some example_state.
Proof. vm_compute. reflexivity. Qed.

Lemma stale_entry_never_observed_witness :
  forallb (λ e, negb (is_finalize e))
    [CallAdd (VRef (Object 1)); CallAdd (VRef (Object 2)); Reclaim (Object 1)]
  = true ∧
  run [CallAdd (VRef (Object 1)); CallAdd (VRef (Object 2)); Reclaim (Object 1)] init
  = Some example_state ∧
  IterableWeakSet.has (VRef (Object 1)) example_state = (Normal false, example_state) ∧
  (∃ l s', IterableWeakSet.iterate example_state = (Normal l, s') ∧ VRef (Object 1) ∉ l) ∧
  (∃ s', IterableWeakSet.size example_state = (Normal 1, s')).
Proof.
  split; [reflexivity|]. split; [vm_compute; reflexivity|].
  destruct (stale_entry_never_observed
              [CallAdd (VRef (Object 1)); CallAdd (VRef (Object 2)); Reclaim (Object 1)]
              example_state)
    as (Hstale & Hsize & _); [vm_compute; reflexivity|].
  destruct (Hstale ({| wr_id := 1; wr_target := Object 1 |}, 0))
    as (_ & Hit & _ & Hhas & _).
  - vm_compute. left.
  - vm_compute. reflexivity.
  - split; [exact Hhas|]. split; [exact Hit | exact Hsize].
Defined.

Lemma add_primitive_raises_witness :
  canBeHeldWeakly (VNumber 1) = false ∧
  ∃ s', IterableWeakSet.add (VNumber 1) init = (Throw InvalidKeyType, s').
Proof.
  split; [reflexivity|].
  destruct (add_primitive_raises (VNumber 1) init) as (_ & Hadd & _);
    [reflexivity | exact Hadd].
Defined.

Lemma has_delete_primitive_false_witness :
  canBeHeldWeakly (VString "x") = false ∧
  IterableWeakSet.has (VString "x") example_state = (Normal false, example_state) ∧
  IterableWeakSet.delete (VString "x") example_state = (Normal false, example_state).
Proof.
  split; [reflexivity|].
  destruct (has_delete_primitive_false (VString "x") example_state) as (Hhas & Hdel & _);
    [reflexivity | split; [exact Hhas | exact Hdel]].
Defined.

Lemma add_present_is_noop_witness :
  IterableWeakSet.has (VRef (Object 2)) example_state = (Normal true, example_state) ∧
  IterableWeakSet.add (VRef (Object 2)) example_state = (Normal This, example_state).
Proof.
  split; [vm_compute; reflexivity|].
  apply (add_present_is_noop (Object 2) example_state). vm_compute. reflexivity.
Defined.

Lemma delete_absent_is_noop_witness :
  IterableWeakSet.has (VRef (Object 5)) example_state = (Normal false, example_state) ∧
  IterableWeakSet.delete (VRef (Object 5)) example_state = (Normal false, example_state).
Proof.
  split; [vm_compute; reflexivity|].
  apply (delete_absent_is_noop (Object 5) example_state). vm_compute. reflexivity.
Defined.

(** * The scenarios of the specification, run on the model *)

Example scenario_add_add :
  IterableWeakSet.add (VRef (Object 1)) init = (Normal This, added (Object 1) init) ∧
  IterableWeakSet.add (VRef (Object 2)) (added (Object 1) init)
  = (Normal This, added (Object 2) (added (Object 1) init)) ∧
  (IterableWeakSet.size (added (Object 2) (added (Object 1) init))).1 = Normal 2 ∧
  (IterableWeakSet.iterate (added (Object 2) (added (Object 1) init))).1
  = Normal [VRef (Object 1); VRef (Object 2)].
Proof. vm_compute. done. Qed.

Example scenario_delete_twice :
  ∃ s, IterableWeakSet.delete (VRef (Object 1)) (added (Object 2) (added (Object 1) init))
       = (Normal true, s) ∧
       IterableWeakSet.has (VRef (Object 1)) s = (Normal false, s) ∧
       (IterableWeakSet.size s).1 = Normal 1 ∧
       IterableWeakSet.delete (VRef (Object 1)) s = (Normal false, s).
Proof. eexists. vm_compute. done. Qed.

Example scenario_clear :
  ∃ s, IterableWeakSet.clear (added (Object 2) (added (Object 1) init)) = (Normal tt, s) ∧
       (IterableWeakSet.size s).1 = Normal 0 ∧
       (IterableWeakSet.iterate s).1 = Normal [].
Proof. eexists. vm_compute. done. Qed.

Example scenario_add_primitive :
  (IterableWeakSet.add (VNumber 1) init).1 = Throw InvalidKeyType.
Proof. reflexivity. Qed.

Example scenario_reclaimed :
  (IterableWeakSet.size (added (Object 2) (added (Object 1) init))).1 = Normal 2 ∧
  (IterableWeakSet.size example_state).1 = Normal 1 ∧
  (IterableWeakSet.iterate example_state).1 = Normal [VRef (Object 2)] ∧
  (IterableWeakSet.entries example_state).1 = Normal [(VRef (Object 2), VRef (Object 2))].
Proof. vm_compute. done. Qed.

(** An element that is not truthy: [size] passes over it and prunes
    its entry, [has] stays true, and [clear] leaves it in [#refs]. *)
Example scenario_not_truthy :
  IterableWeakSet.size falsy_state = (Normal 1, falsy_pruned) ∧
  IterableWeakSet.has (VRef (HTMLDDA 2)) falsy_pruned = (Normal true, falsy_pruned) ∧
  ∃ s, IterableWeakSet.clear falsy_state = (Normal tt, s) ∧
       IterableWeakSet.has (VRef (HTMLDDA 2)) s = (Normal true, s) ∧
       IterableWeakSet.has (VRef (Object 1)) s = (Normal false, s) ∧
       tokens s = [None; None] ∧ registry s = [].
Proof. split_and!; [vm_compute; reflexivity..|]. eexists. vm_compute. done. Qed.

(** * Further properties of the class *)

(** ** Where a traversal empties slots *)

Lemma yielded_collected s s' r :
  collected s' = collected s → yielded r s' = yielded r s.
Proof. intros Hc. unfold yielded, deref. by rewrite Hc. Qed.

(** One resumption from the slot [i]: the slots before [i] and those from
    the yielding slot on are untouched, the slots in between are empty
    afterwards. The slot it yields for holds an element that is there
    and truthy. *)
Lemma iter_loop_slots fuel i s item g s' :
  wf s →
  IterableWeakSet.iter_loop fuel i s = (Normal (item, g), s') →
  (∀ k, k < i → tokens s' !! k = tokens s !! k) ∧
  match g with
  | Running j' => ∃ j r t a,
      j' = S j ∧ i ≤ j ∧ item = Some (VRef a) ∧
      tokens s !! j = Some (Some (r, t)) ∧ yielded r s = Some a ∧
      (∀ k, i ≤ k → k < j → tokens s' !! k = Some None) ∧
      (∀ k, j ≤ k → tokens s' !! k = tokens s !! k)
  | Done => item = None ∧
      ∀ k, i ≤ k → k < length (tokens s) → tokens s' !! k = Some None
  end.
Proof.
  revert i s. induction fuel as [|fuel IH]; intros i s Hwf Hloop.
  - simpl in Hloop. destruct (tokens s !! i) as [slot|] eqn:Hi; [done|].
    injection Hloop as <- <- <-. split; [done|]. split; [done|].
    intros k Hik Hk. apply lookup_ge_None in Hi. lia.
  - rewrite iter_loop_unfold in Hloop.
    destruct (tokens s !! i) as [[[r t]|]|] eqn:Hi.
    + destruct (yielded r s) as [a|] eqn:Hd.
      * injection Hloop as <- <- <-. split; [done|].
        exists i, r, t, a. split_and!; try done. intros k ? ?. lia.
      * assert (tokens (prune r t s) = <[i := None]> (tokens s)) as Htok.
        { simpl. eapply map_delete_index; [apply (wf_keys _ Hwf) | done]. }
        assert (wf (prune r t s)) as Hwf'.
        { apply wf_prune; [done | by eapply list_elem_of_lookup_2 | done]. }
        destruct (IH _ _ Hwf' Hloop) as [Hbefore Hafter].
        pose proof (lookup_lt_Some _ _ _ Hi) as Hlt.
        assert (∀ k, k ≠ i → tokens (prune r t s) !! k = tokens s !! k) as Hne.
        { intros k Hk. rewrite Htok. by apply list_lookup_insert_ne. }
        assert (tokens s' !! i = Some None) as Hi'.
        { rewrite Hbefore by lia. rewrite Htok. by apply list_lookup_insert_eq. }
        split.
        { intros k Hk. rewrite Hbefore by lia. apply Hne. lia. }
        destruct g as [j'|].
        -- destruct Hafter as (j & r' & t' & a & -> & Hle & -> & Hj & Hd' & Hgap & Hrest).
           exists j, r', t', a. split_and!; try done.
           ++ lia.
           ++ rewrite <- Hne by lia. done.
           ++ intros k Hik Hkj. destruct (decide (k = i)) as [->|]; [done|].
              apply Hgap; lia.
           ++ intros k Hjk. rewrite Hrest by done. apply Hne. lia.
        -- destruct Hafter as [-> Hgap]. split; [done|]. intros k Hik Hk.
           destruct (decide (k = i)) as [->|]; [done|].
           apply Hgap; [lia|]. rewrite Htok, length_insert. done.
    + destruct (IH _ _ Hwf Hloop) as [Hbefore Hafter]. split.
      { intros k Hk. apply Hbefore. lia. }
      destruct g as [j'|].
      * destruct Hafter as (j & r' & t' & a & -> & Hle & -> & Hj & Hd' & Hgap & Hrest).
        exists j, r', t', a. split_and!; try done; [lia|].
        intros k Hik Hkj. destruct (decide (k = i)) as [->|].
        -- rewrite Hbefore by lia. done.
        -- apply Hgap; lia.
      * destruct Hafter as [-> Hgap]. split; [done|]. intros k Hik Hk.
        destruct (decide (k = i)) as [->|].
        -- rewrite Hbefore by lia. done.
        -- apply Hgap; [lia | done].
    + injection Hloop as <- <- <-. split; [done|]. split; [done|].
      intros k Hik Hk. apply lookup_ge_None in Hi. lia.
Qed.

Lemma all_yield_prunes s s' : all_yield s → prunes s s' → s' = s.
Proof.
  intros Hns Hp. destruct Hp as [|s r t s' Hin Hd _]; [done|].
  exfalso. destruct (Hns (r, t) Hin) as [a Ha]. simpl in Ha. congruence.
Qed.

Lemma all_yield_no_stale s : all_yield s → no_stale s.
Proof.
  intros Hall entry Hin Hstale. destruct (Hall entry Hin) as [a Ha].
  rewrite (stale_yields_nothing _ _ Hstale) in Ha. done.
Qed.

(** A loop over the container whose body does not touch it leaves only
    entries the iterator yields for, when there were no others before
    the slot it started from. *)
Lemma for_of_pure_clean {A} (f : JSValue → A → A) fuel i acc s x s' :
  wf s →
  IterableWeakSet.for_of fuel (Running i) (λ v acc, mret (f v acc)) acc s
  = (Normal x, s') →
  (∀ k entry, k < i → tokens s !! k = Some (Some entry) → is_Some (yielded entry.1 s)) →
  all_yield s'.
Proof.
  revert i acc s. induction fuel as [|fuel IH]; intros i acc s Hwf Hfor Hclean; [done|].
  destruct (next_spec i s) as (s1 & Hp1 & Hnext).
  simpl in Hfor. rewrite (bind_normal _ _ _ _ _ Hnext) in Hfor.
  destruct (prunes_fields _ _ Hp1) as (Hc1 & _ & _ & Hlen).
  pose proof (prunes_wf _ _ Hp1 Hwf) as Hwf1.
  destruct (first_live (drop i (elements s)) i) as [item g].
  destruct (iter_loop_slots _ _ _ _ _ _ Hwf Hnext) as [Hbefore Hafter].
  destruct g as [j'|].
  - destruct Hafter as (j & r & t & a & -> & Hle & -> & Hj & Hd & Hgap & Hrest).
    simpl in Hfor. unfold mbind at 1, M_bind at 1, mret at 1, M_ret at 1 in Hfor.
    apply (IH _ _ _ Hwf1 Hfor). intros k entry Hk Hslot.
    rewrite (yielded_collected _ _ _ Hc1).
    destruct (decide (k < i)) as [Hki|Hki].
    + rewrite Hbefore in Hslot by done. by eapply Hclean.
    + destruct (decide (k = j)) as [->|Hkj].
      * rewrite Hrest in Hslot by done. rewrite Hj in Hslot.
        injection Hslot as <-. simpl. by rewrite Hd.
      * rewrite Hgap in Hslot by lia. done.
  - destruct Hafter as [-> Hgap]. simpl in Hfor. injection Hfor as <- <-.
    intros entry [k Hslot]%list_elem_of_lookup_1.
    rewrite (yielded_collected _ _ _ Hc1).
    pose proof (lookup_lt_Some _ _ _ Hslot) as Hk.
    destruct (decide (k < i)) as [Hki|Hki].
    + rewrite Hbefore in Hslot by done. by eapply Hclean.
    + rewrite Hgap in Hslot by lia. done.
Qed.

(** What is left to yield for a generator. *)
Lemma drain_spec g s :
  ∃ s', prunes s s' ∧
    IterableWeakSet.drain g s = (Normal (VRef <$> omap id (remaining g s)), s').
Proof.
  destruct g as [i|].
  - destruct (for_of_pure (λ v acc, acc ++ [v]) (S (length (tokens s))) i [] s)
      as (s' & Hp & Heq); [lia|].
    exists s'. split; [done|]. unfold IterableWeakSet.drain.
    rewrite Heq. by rewrite (foldl_collect VRef).
  - exists s. split; [constructor | done].
Qed.

Lemma iterate_drain s :
  IterableWeakSet.iterate s = IterableWeakSet.drain IterableWeakSet.iterator s.
Proof. done. Qed.

(** Loops whose bodies do not touch the container leave the same state,
    whatever the bodies compute. *)
Lemma for_of_pure_state {A B} (f : JSValue → A → A) (h : JSValue → B → B)
    fuel g acc acc' s :
  (IterableWeakSet.for_of fuel g (λ v acc, mret (f v acc)) acc s).2
  = (IterableWeakSet.for_of fuel g (λ v acc, mret (h v acc)) acc' s).2.
Proof.
  revert g acc acc' s. induction fuel as [|fuel IH]; intros g acc acc' s; [done|].
  simpl. unfold mbind at 1 3, M_bind at 1 3.
  destruct (IterableWeakSet.next g s) as [[[[v|] g']|e|] s1]; try done.
  simpl. unfold mbind, M_bind, mret, M_ret. apply IH.
Qed.

(** ** No element twice *)

Lemma live_view_NoDup s : wf s → NoDup (live_view s).
Proof.
  intros Hwf. rewrite live_view_alt.
  assert (∀ r r' t t' a, Some (r, t) ∈ tokens s → Some (r', t') ∈ tokens s →
            yielded r s = Some a → yielded r' s = Some a → r = r') as Huniq.
  { intros r r' t t' a Hin Hin' (<- & Hc & _)%yielded_Some (Heq & _ & _)%yielded_Some.
    destruct (wf_tokens _ Hwf _ _ Hin) as (_ & _ & Hr).
    destruct (wf_tokens _ Hwf _ _ Hin') as (_ & _ & Hr').
    specialize (Hr Hc). rewrite Heq in Hr'. specialize (Hr' Hc). congruence. }
  pose proof (wf_keys _ Hwf) as Hnd. revert Hnd Huniq.
  induction (tokens s) as [|[[k v]|] m IH]; intros Hnd Huniq.
  - constructor.
  - change (map_keys (Some (k, v) :: m)) with (k :: map_keys m) in Hnd.
    apply NoDup_cons in Hnd as [Hk Hnd].
    assert (NoDup (omap (slot_element s) m)) as IH'.
    { apply IH; [done|]. intros r r' t t' a Hin Hin'. apply (Huniq r r' t t' a); by right. }
    rewrite omap_slot_cons. cbn [slot_element mbind option_bind fst].
    destruct (yielded k s) as [a|] eqn:Hd; [|done].
    apply NoDup_cons. split; [|done].
    intros (slot & Hin & Hse)%list_elem_of_omap.
    destruct slot as [[r' t']|]; [|done]. simpl in Hse.
    assert (k = r') as -> by (eapply (Huniq k r' v t' a); [left | by right | done | done]).
    apply Hk. apply map_keys_elem. eauto.
  - rewrite omap_slot_cons. cbn [slot_element mbind option_bind].
    apply IH; [done|]. intros r r' t t' a Hin Hin'. apply (Huniq r r' t t' a); by right.
Qed.

(** X1. In every reachable state a full iteration yields no element
    twice and yields exactly the values that are truthy and for which
    [has] answers [true]; [size] is the number of elements it yields.
    An element that is not truthy is not yielded, whatever [has] says. *)
Theorem iteration_is_a_set s :
  reachable s →
  ∃ l s', IterableWeakSet.iterate s = (Normal l, s') ∧
          NoDup l ∧
          (∀ v, v ∈ l ↔
                IterableWeakSet.has v s = (Normal true, s) ∧ ToBoolean v = true) ∧
          (IterableWeakSet.size s).1 = Normal (length l).
Proof.
  intros Hwf%reachable_wf.
  destruct (iterate_spec s) as (s' & _ & Heq).
  exists (VRef <$> live_view s), s'. split_and!; [done | | |].
  - apply NoDup_fmap_2; [apply _ | by apply live_view_NoDup].
  - intros v. rewrite has_spec. split.
    + intros (a & -> & [Ha Hb]%(has_live_view _ _ Hwf))%list_elem_of_fmap. simpl.
      by rewrite bool_decide_eq_true_2.
    + intros [[= Hhas] Hb]. destruct v as [| | | | |a]; try done. simpl in Hhas.
      apply bool_decide_eq_true in Hhas. apply list_elem_of_fmap_2.
      by apply has_live_view.
  - destruct (size_spec s) as (s2 & _ & ->). simpl. by rewrite length_fmap.
Qed.

(** X2. In every reachable state a full iteration leaves no stale entry
    in the Reference Log and no cell in the registry whose callback is
    due; run again in the state it left, the iteration and [size] give
    the same answer and change nothing. [size] prunes in the same way. *)
Theorem full_iteration_prunes_all s :
  reachable s →
  ∃ l s1 s2,
    IterableWeakSet.iterate s = (Normal l, s1) ∧
    no_stale s1 ∧
    (∀ k, finalize k s1 = None) ∧
    IterableWeakSet.iterate s1 = (Normal l, s1) ∧
    IterableWeakSet.size s1 = (Normal (length l), s1) ∧
    IterableWeakSet.size s = (Normal (length l), s2) ∧
    no_stale s2.
Proof.
  intros Hwf%reachable_wf.
  destruct (iterate_spec s) as (s1 & Hp1 & Heq1).
  destruct (size_spec s) as (s2 & Hp2 & Heq2).
  assert (all_yield s1) as Hall1.
  { eapply (for_of_pure_clean (λ v acc, acc ++ [v]) _ 0); [done | exact Heq1|].
    intros; lia. }
  assert (all_yield s2) as Hall2.
  { eapply (for_of_pure_clean (λ _ n, n + 1) _ 0); [done | exact Heq2|].
    intros; lia. }
  pose proof (all_yield_no_stale _ Hall1) as Hns1.
  pose proof (all_yield_no_stale _ Hall2) as Hns2.
  pose proof (prunes_wf _ _ Hp1 Hwf) as Hwf1.
  exists (VRef <$> live_view s), s1, s2. split_and!; [done | done | | | | | done].
  - intros k. unfold finalize. destruct (registry s1 !! k) as [c|] eqn:Hk; [|done].
    rewrite decide_False; [done|]. apply list_elem_of_lookup_2 in Hk.
    destruct (wf_registry _ Hwf1 c Hk) as [-> Hget].
    apply map_get_Some in Hget. specialize (Hns1 _ Hget).
    unfold stale, deref in Hns1. simpl in Hns1. by case_decide.
  - destruct (iterate_spec s1) as (s3 & Hp3 & Heq3).
    rewrite (all_yield_prunes _ _ Hall1 Hp3) in Heq3.
    by rewrite Heq3, (prunes_live_view _ _ Hp1).
  - destruct (size_spec s1) as (s3 & Hp3 & Heq3).
    rewrite (all_yield_prunes _ _ Hall1 Hp3) in Heq3.
    by rewrite Heq3, (prunes_live_view _ _ Hp1), length_fmap.
  - by rewrite Heq2, length_fmap.
Qed.

Lemma entries_drain_for_of fuel g acc s :
  IterableWeakSet.entries_drain fuel g acc s
  = IterableWeakSet.for_of fuel g (λ value acc, mret (acc ++ [(value, value)])) acc s.
Proof.
  revert g acc s. induction fuel as [|fuel IH]; intros g acc s; [done|].
  simpl. unfold IterableWeakSet.entries_next, mbind, M_bind, mret, M_ret.
  destruct (IterableWeakSet.next g s) as [[[[v|] g']|e|] s1]; try done.
  simpl. apply IH.
Qed.

(** X3. In every state, a generator of [entries()] run to its end, one
    [next()] after the other, yields the pair [(v, v)] for exactly the
    elements [v] that the default iteration yields, in the same order,
    and leaves the same state. *)
Theorem entries_pair_the_iteration s :
  ∃ l s',
    IterableWeakSet.iterate s = (Normal l, s') ∧
    IterableWeakSet.entries_drain (S (length (tokens s))) IterableWeakSet.iterator [] s
    = (Normal ((λ v, (v, v)) <$> l), s') ∧
    IterableWeakSet.entries s = (Normal ((λ v, (v, v)) <$> l), s').
Proof.
  destruct (iterate_spec s) as (s1 & _ & Heq1).
  destruct (entries_spec s) as (s2 & _ & Heq2).
  assert (s2 = s1) as ->.
  { pose proof (for_of_pure_state (λ v acc, acc ++ [(v, v)]) (λ v acc, acc ++ [v])
                  (S (length (tokens s))) IterableWeakSet.iterator [] [] s) as Hst.
    unfold IterableWeakSet.entries in Heq2. unfold IterableWeakSet.iterate in Heq1.
    cbv beta in Hst. by rewrite Heq1, Heq2 in Hst. }
  assert (IterableWeakSet.entries s
          = (Normal ((λ v, (v, v)) <$> (VRef <$> live_view s)), s1)) as Hentries.
  { rewrite Heq2. by rewrite <- list_fmap_compose. }
  exists (VRef <$> live_view s), s1. split_and!; [done | | done].
  rewrite entries_drain_for_of. exact Hentries.
Qed.

(** With enough fuel for the slots that are left, the fuel does not
    matter. *)
Lemma for_of_pure_fuel {A} (f : JSValue → A → A) fuel fuel' i acc s :
  length (tokens s) - i < fuel → length (tokens s) - i < fuel' →
  IterableWeakSet.for_of fuel (Running i) (λ v acc, mret (f v acc)) acc s
  = IterableWeakSet.for_of fuel' (Running i) (λ v acc, mret (f v acc)) acc s.
Proof.
  revert fuel' i acc s. induction fuel as [|fuel IH]; intros fuel' i acc s H1 H2; [lia|].
  destruct fuel' as [|fuel']; [lia|].
  destruct (next_spec i s) as (s1 & Hp1 & Hnext).
  simpl. rewrite !(bind_normal _ _ _ _ _ Hnext).
  pose proof (first_live_spec (elements s) i) as Hfl.
  destruct (first_live (drop i (elements s)) i) as [[v|] g]; simpl; [|done].
  destruct Hfl as (j & a & -> & -> & Hle & Hj & _).
  apply lookup_lt_Some in Hj. unfold elements in Hj. rewrite length_fmap in Hj.
  destruct (prunes_fields _ _ Hp1) as (_ & _ & _ & Hlen).
  unfold mbind, M_bind, mret, M_ret. apply IH; lia.
Qed.

(** X4. [forEach] with a callback that leaves the container alone, given
    fuel for more calls than the Reference Log has slots, calls it once
    for each element the default iteration yields, in that order, with
    the element as value and as key and with [thisArg]; it leaves the
    state the iteration leaves. *)
Theorem forEach_visits_the_iteration {T A : Type}
    (f : T → JSValue → JSValue → A → A) (thisArg : T) (acc : A) fuel s :
  length (tokens s) < fuel →
  ∃ l s',
    IterableWeakSet.iterate s = (Normal l, s') ∧
    IterableWeakSet.forEach fuel
      (λ t value key acc, mret (f t value key acc)) thisArg acc s
    = (Normal (foldl (λ acc v, f thisArg v v acc) acc l), s').
Proof.
  intros Hfuel.
  destruct (iterate_spec s) as (s1 & _ & Heq1).
  destruct (for_of_pure (λ v acc, f thisArg v v acc) (S (length (tokens s))) 0 acc s)
    as (s2 & _ & Heq2); [lia|].
  assert (s2 = s1) as ->.
  { pose proof (for_of_pure_state (λ v acc, f thisArg v v acc) (λ v acc, acc ++ [v])
                  (S (length (tokens s))) IterableWeakSet.iterator acc [] s) as Hst.
    unfold IterableWeakSet.iterate in Heq1. unfold IterableWeakSet.iterator in *.
    cbv beta in Hst. by rewrite Heq1, Heq2 in Hst. }
  exists (VRef <$> live_view s), s1. split; [done|].
  unfold IterableWeakSet.forEach, IterableWeakSet.iterator.
  rewrite (for_of_pure_fuel (λ v acc, f thisArg v v acc) fuel (S (length (tokens s))))
    by lia.
  rewrite Heq2. by rewrite foldl_fmap.
Qed.

(** ** What [clear] removes and what it leaves *)

Lemma all_empty_get k m : (∀ slot, slot ∈ m → slot = None) → map_get k m = None.
Proof.
  intros Hall. destruct (map_get k m) as [v|] eqn:Hget; [|done].
  apply map_get_Some in Hget. by apply Hall in Hget.
Qed.

Lemma clear_loop_slots fuel i s s' :
  wf s →
  IterableWeakSet.for_of fuel (Running i)
    (λ value _, IterableWeakSet.delete value;; mret tt) tt s = (Normal tt, s') →
  (∀ k slot, k < i → tokens s !! k = Some slot → slot = None) →
  (∀ slot, slot ∈ tokens s' → slot = None) ∧ collected s' = collected s ∧
  (∀ b, ToBoolean (VRef b) = false → refs s' !! b = refs s !! b).
Proof.
  revert i s. induction fuel as [|fuel IH]; intros i s Hwf Hfor Hinv; [done|].
  destruct (next_spec i s) as (s1 & Hp1 & Hnext).
  simpl in Hfor. rewrite (bind_normal _ _ _ _ _ Hnext) in Hfor.
  destruct (prunes_fields _ _ Hp1) as (Hc1 & _ & Hr1 & Hlen).
  pose proof (prunes_wf _ _ Hp1 Hwf) as Hwf1.
  destruct (first_live (drop i (elements s)) i) as [item g].
  destruct (iter_loop_slots _ _ _ _ _ _ Hwf Hnext) as [Hbefore Hafter].
  destruct g as [j'|].
  - destruct Hafter as (j & r & t & a & -> & Hle & -> & Hj & Hd & Hgap & Hrest).
    apply yielded_Some in Hd as (<- & Hc & Hb). rewrite <- Hc1 in Hc.
    assert (tokens s1 !! j = Some (Some (r, t))) as Hj1 by (by rewrite Hrest).
    pose proof (list_elem_of_lookup_2 _ _ _ Hj1) as Hin.
    destruct (live_entry_in_refs _ _ _ Hwf1 Hin Hc) as [Hr Ht].
    pose proof (delete_present _ _ _ _ Hr Ht) as Hdel.
    simpl in Hfor.
    rewrite (bind_normal _ _ _ _ _ (bind_normal _ _ _ _ _ Hdel)) in Hfor.
    unfold mret at 1, M_ret at 1 in Hfor.
    destruct (IH _ _ (wf_deleted _ _ _ _ Hwf1 Hr Ht) Hfor) as (Hall & Hc' & Hrefs).
    + intros k slot Hk. simpl.
      rewrite (map_delete_index r t j) by (apply (wf_keys _ Hwf1) || done).
      destruct (decide (k = j)) as [->|Hne].
      * rewrite list_lookup_insert_eq by (by eapply lookup_lt_Some). by intros [= <-].
      * rewrite list_lookup_insert_ne by done. intros Hslot.
        destruct (decide (k < i)) as [Hki|Hki].
        -- rewrite Hbefore in Hslot by done. by eapply Hinv.
        -- rewrite Hgap in Hslot by lia. by injection Hslot as <-.
    + split_and!; [done | by rewrite Hc' |].
      intros b Hb'. rewrite (Hrefs b Hb'). simpl.
      rewrite lookup_delete_ne by (intros Heq; rewrite Heq in Hb; congruence).
      by rewrite Hr1.
  - destruct Hafter as [-> Hgap]. simpl in Hfor. injection Hfor as <-.
    split_and!; [| done | by intros; rewrite Hr1].
    intros slot [k Hslot]%list_elem_of_lookup_1.
    pose proof (lookup_lt_Some _ _ _ Hslot) as Hk.
    destruct (decide (k < i)) as [Hki|Hki].
    + rewrite Hbefore in Hslot by done. by eapply Hinv.
    + rewrite Hgap in Hslot by lia. by injection Hslot as <-.
Qed.

(** X5. In every reachable state [clear()] returns without raising, and
    afterwards every slot of the Reference Log is empty and the registry
    holds nothing; [size] is 0 and an iteration yields nothing, both
    without changing the state. The Membership Index has lost every
    truthy element and kept the others, which the traversal passed over:
    [has] is true afterwards for exactly the values that are not truthy
    and for which it was true before. No element is reclaimed by it. *)
Theorem clear_removes_everything s :
  reachable s →
  ∃ s', IterableWeakSet.clear s = (Normal tt, s') ∧
        (∀ slot, slot ∈ tokens s' → slot = None) ∧
        registry s' = [] ∧ collected s' = collected s ∧
        (∀ a, refs s' !! a = if ToBoolean (VRef a) then None else refs s !! a) ∧
        (∀ v, IterableWeakSet.has v s' = (Normal true, s') ↔
              IterableWeakSet.has v s = (Normal true, s) ∧ ToBoolean v = false) ∧
        IterableWeakSet.size s' = (Normal 0, s') ∧
        IterableWeakSet.iterate s' = (Normal [], s').
Proof.
  intros Hwf%reachable_wf.
  destruct (clear_spec s Hwf) as (s' & Hclear & Hwf' & _).
  destruct (clear_empties s Hwf) as (s'' & Hclear' & Hlive).
  rewrite Hclear in Hclear'. injection Hclear' as <-.
  destruct (clear_loop_slots _ 0 s s' Hwf Hclear) as (Hall & Hc & Hkept); [intros; lia|].
  assert (∀ a, refs s' !! a = if ToBoolean (VRef a) then None else refs s !! a) as Hrefs.
  { intros a. destruct (ToBoolean (VRef a)) eqn:Hb; [|by apply Hkept].
    destruct (refs s' !! a) as [r|] eqn:Hr; [|done].
    destruct (wf_refs _ Hwf' a r Hr) as (_ & _ & Hlog).
    destruct (Hlog Hb) as [t Ht]. by rewrite (all_empty_get _ _ Hall) in Ht. }
  assert (all_yield s') as Hns.
  { intros entry Hin. by apply Hall in Hin. }
  exists s'. split_and!; [done | done | | done | done | | |].
  - destruct (registry s') as [|c cells] eqn:Hreg; [done|].
    destruct (wf_registry _ Hwf' c) as [_ Hget]; [rewrite Hreg; left|].
    by rewrite (all_empty_get _ _ Hall) in Hget.
  - intros v. rewrite !has_spec. destruct v as [| | | | |a]; try by (split; [|intros [? ?]]).
    simpl. rewrite Hrefs. destruct (ToBoolean (VRef a)).
    + rewrite (bool_decide_eq_false_2 (is_Some None)) by (by intros [? ?]).
      split; [done | by intros [_ ?]].
    + split.
      * intros [= Hhas]. by rewrite Hhas.
      * intros [[= Hhas] _]. by rewrite Hhas.
  - destruct (size_spec s') as (s2 & Hp & Heq).
    rewrite (all_yield_prunes _ _ Hns Hp) in Heq. by rewrite Heq, Hlive.
  - destruct (iterate_spec s') as (s2 & Hp & Heq).
    rewrite (all_yield_prunes _ _ Hns Hp) in Heq. by rewrite Heq, Hlive.
Qed.

(** ** The constructor *)











(** ** [size] under [add], [delete] and reclamation *)

Lemma length_filter_ne (l : list Ref) a :
  NoDup l → a ∈ l → S (length (filter (λ x, x ≠ a) l)) = length l.
Proof.
  induction l as [|x l IH]; intros Hnd Ha; [by apply elem_of_nil in Ha|].
  apply NoDup_cons in Hnd as [Hx Hnd]. destruct (decide (x = a)) as [->|Hne].
  - rewrite filter_cons_False by (intros Hn; by apply Hn).
    rewrite filter_all; [done|]. by intros y Hy ->.
  - rewrite filter_cons_True by done. simpl. f_equal. apply IH; [done|].
    apply elem_of_cons in Ha as [->|Ha]; done.
Qed.

Lemma has_true_iff a s :
  IterableWeakSet.has (VRef a) s = (Normal true, s) ↔ is_Some (refs s !! a).
Proof.
  rewrite has_spec. simpl. split.
  - intros [= Hhas]. by apply bool_decide_eq_true in Hhas.
  - intros Hsome. by rewrite bool_decide_eq_true_2.
Qed.

Lemma has_false_iff a s :
  IterableWeakSet.has (VRef a) s = (Normal false, s) ↔ refs s !! a = None.
Proof.
  rewrite has_spec. simpl. split.
  - intros [= Hhas]. apply bool_decide_eq_false in Hhas.
    destruct (refs s !! a); [|done]. exfalso. eauto.
  - intros ->. by rewrite bool_decide_eq_false_2 by (by intros [? ?]).
Qed.

(** What an element that is present adds to [size]: one when it is
    truthy, nothing when it is not. *)
Lemma length_live_view_present a s :
  wf s → is_Some (refs s !! a) →
  length (live_view s)
  = length (filter (λ x, x ≠ a) (live_view s)) + (if ToBoolean (VRef a) then 1 else 0).
Proof.
  intros Hwf Hr. destruct (ToBoolean (VRef a)) eqn:Hb.
  - rewrite <- (length_filter_ne (live_view s) a); [lia | by apply live_view_NoDup |].
    by apply has_live_view.
  - rewrite live_view_falsy by done. lia.
Qed.

(** X8. In a reachable state, [add(e)] of an element the caller holds and
    that is not present returns and makes [has(e)] true. When [e] is
    truthy it is last in the iteration afterwards and [size] is one
    more; when it is not, the iteration and [size] are what they were. *)
Theorem add_absent_grows_by_one e s :
  reachable s → e ∉ collected s →
  IterableWeakSet.has (VRef e) s = (Normal false, s) →
  ∃ l s1,
    (IterableWeakSet.iterate s).1 = Normal l ∧
    (IterableWeakSet.size s).1 = Normal (length l) ∧
    IterableWeakSet.add (VRef e) s = (Normal This, s1) ∧
    IterableWeakSet.has (VRef e) s1 = (Normal true, s1) ∧
    (IterableWeakSet.iterate s1).1
    = Normal (l ++ (if ToBoolean (VRef e) then [VRef e] else [])) ∧
    (IterableWeakSet.size s1).1
    = Normal (length l + (if ToBoolean (VRef e) then 1 else 0)).
Proof.
  intros Hwf%reachable_wf Hc Hr%has_false_iff.
  exists (VRef <$> live_view s), (added e s).
  destruct (iterate_spec s) as (? & _ & ->). destruct (size_spec s) as (? & _ & ->).
  destruct (iterate_spec (added e s)) as (? & _ & ->).
  destruct (size_spec (added e s)) as (? & _ & ->). simpl.
  rewrite live_view_added by done. rewrite fmap_app, length_app, !length_fmap. simpl.
  split_and!; [done | done | by apply add_absent | | |].
  - apply has_true_iff. simpl. rewrite lookup_insert_eq. eauto.
  - by destruct (ToBoolean (VRef e)).
  - by destruct (ToBoolean (VRef e)).
Qed.

(** X9. In a reachable state, [delete(e)] of an element that is present
    leaves [has(e)] false and the other elements in the iteration, in
    their order. When [e] is truthy, [delete] returns [true] and [size]
    is one less. When it is not, the iteration and [size] did not count
    it and stay as they were, and [delete] returns [true] or, when a
    traversal has pruned the entry of [e], throws from [unregister]. *)
Theorem delete_present_shrinks_by_one e s :
  reachable s →
  IterableWeakSet.has (VRef e) s = (Normal true, s) →
  ∃ l c s1,
    (IterableWeakSet.iterate s).1 = Normal l ∧
    IterableWeakSet.delete (VRef e) s = (c, s1) ∧
    (c = Normal true ∨
     (c = Throw InvalidUnregisterToken ∧ ToBoolean (VRef e) = false)) ∧
    IterableWeakSet.has (VRef e) s1 = (Normal false, s1) ∧
    (IterableWeakSet.iterate s1).1 = Normal (filter (λ v, v ≠ VRef e) l) ∧
    (IterableWeakSet.size s).1
    = Normal (length (filter (λ v, v ≠ VRef e) l)
              + (if ToBoolean (VRef e) then 1 else 0)) ∧
    (IterableWeakSet.size s1).1 = Normal (length (filter (λ v, v ≠ VRef e) l)) ∧
    (ToBoolean (VRef e) = false → filter (λ v, v ≠ VRef e) l = l).
Proof.
  intros Hwf%reachable_wf [r Hr]%has_true_iff.
  destruct (wf_refs _ Hwf e r Hr) as (_ & _ & Hlog).
  exists (VRef <$> live_view s).
  destruct (iterate_spec s) as (? & _ & ->). destruct (size_spec s) as (? & _ & ->).
  rewrite filter_fmap_VRef, !length_fmap. simpl.
  assert (length (live_view s)
          = length (filter (λ x, x ≠ e) (live_view s))
            + (if ToBoolean (VRef e) then 1 else 0)) as Hlen
    by (apply length_live_view_present; eauto).
  destruct (map_get r (tokens s)) as [t|] eqn:Ht.
  - exists (Normal true), (deleted e r t s).
    destruct (iterate_spec (deleted e r t s)) as (? & _ & ->).
    destruct (size_spec (deleted e r t s)) as (? & _ & ->). simpl.
    rewrite live_view_deleted by done.
    split_and!; [done | by eapply delete_present | by left | | done | by f_equal | done |].
    + apply has_false_iff. simpl. apply lookup_delete_eq.
    + intros Hb. by rewrite live_view_falsy.
  - assert (ToBoolean (VRef e) = false) as Hb.
    { destruct (ToBoolean (VRef e)); [|done]. destruct (Hlog eq_refl) as [? ?]. done. }
    exists (Throw InvalidUnregisterToken), (with_refs (delete e (refs s)) s).
    destruct (iterate_spec (with_refs (delete e (refs s)) s)) as (? & _ & ->).
    destruct (size_spec (with_refs (delete e (refs s)) s)) as (? & _ & ->). simpl.
    change (live_view (with_refs (delete e (refs s)) s)) with (live_view s).
    rewrite live_view_falsy by done.
    split_and!; [done | by eapply delete_broken | by right | | done | | done | done].
    + apply has_false_iff. simpl. apply lookup_delete_eq.
    + rewrite Hb. f_equal. lia.
Qed.

Lemma live_view_reclaim a s :
  live_view (reclaim a s) = filter (λ x, x ≠ a) (live_view s).
Proof.
  rewrite !live_view_alt. simpl.
  induction (tokens s) as [|[[r t]|] m IH]; [done | |].
  - rewrite !omap_slot_cons. cbn [slot_element mbind option_bind fst].
    rewrite IH. unfold yielded, deref. simpl.
    destruct (decide (wr_target r ∈ collected s)) as [Hc|Hc].
    + rewrite decide_True by set_solver. done.
    + destruct (decide (wr_target r = a)) as [Heq|Hne].
      * rewrite decide_True by set_solver. simpl.
        destruct (ToBoolean (VRef (wr_target r))); [|done].
        by rewrite filter_cons_False by (intros Hn; by apply Hn).
      * rewrite decide_False by set_solver. simpl.
        destruct (ToBoolean (VRef (wr_target r))); [|done].
        by rewrite filter_cons_True.
  - by rewrite !omap_slot_cons.
Qed.

(** X10. In a reachable state, when the host reclaims an element that is
    present, the iteration loses exactly that element and [has] is
    false for it, whether or not the registry's callback runs; [size]
    is one less when the element was truthy, and what it was when the
    element was not, since it was not counted before either. *)
Theorem reclaim_drops_exactly_one e s :
  reachable s →
  IterableWeakSet.has (VRef e) s = (Normal true, s) →
  ∃ l,
    exec (Reclaim e) s = Some (reclaim e s) ∧
    (IterableWeakSet.iterate s).1 = Normal l ∧
    (IterableWeakSet.iterate (reclaim e s)).1 = Normal (filter (λ v, v ≠ VRef e) l) ∧
    (IterableWeakSet.size s).1
    = Normal (length (filter (λ v, v ≠ VRef e) l)
              + (if ToBoolean (VRef e) then 1 else 0)) ∧
    (IterableWeakSet.size (reclaim e s)).1
    = Normal (length (filter (λ v, v ≠ VRef e) l)) ∧
    IterableWeakSet.has (VRef e) (reclaim e s) = (Normal false, reclaim e s).
Proof.
  intros Hwf%reachable_wf [r Hr]%has_true_iff.
  destruct (wf_refs _ Hwf e r Hr) as (Hc & _ & _).
  exists (VRef <$> live_view s).
  destruct (iterate_spec s) as (? & _ & ->). destruct (size_spec s) as (? & _ & ->).
  destruct (iterate_spec (reclaim e s)) as (? & _ & ->).
  destruct (size_spec (reclaim e s)) as (? & _ & ->). simpl.
  rewrite live_view_reclaim, filter_fmap_VRef, !length_fmap.
  split_and!; [by rewrite decide_False | done | done | | done |].
  - f_equal. apply length_live_view_present; eauto.
  - apply has_false_iff. simpl. apply lookup_delete_eq.
Qed.

(** ** The registry's callback *)

Lemma elements_map_delete r s s' :
  deref r s = None → collected s' = collected s →
  tokens s' = map_delete r (tokens s) → elements s' = elements s.
Proof.
  intros Hd Hc Ht. unfold elements. rewrite Ht. clear Ht.
  induction (tokens s) as [|[[k v]|] m IH]; [done | |].
  - cbn [map_delete]. case_decide as Hk; subst; rewrite !fmap_cons.
    + f_equal.
      * simpl. by rewrite (stale_yields_nothing _ _ Hd).
      * apply list_fmap_ext. intros _ slot _. by apply slot_element_collected.
    + f_equal; [by apply slot_element_collected | done].
  - cbn [map_delete]. rewrite !fmap_cons. by f_equal.
Qed.

(** X11. In a reachable state, a run of the registry's callback returns
    without raising and is not observable: [has], [size] and the
    iteration answer as before. It takes one cell out of the registry and
    the entry of that cell, which was stale, out of the Reference Log. *)
Theorem finalization_is_unobservable k s c s' :
  reachable s →
  finalize k s = Some (c, s') →
  c = Normal tt ∧
  (∀ v, (IterableWeakSet.has v s').1 = (IterableWeakSet.has v s).1) ∧
  (IterableWeakSet.size s').1 = (IterableWeakSet.size s).1 ∧
  (IterableWeakSet.iterate s').1 = (IterableWeakSet.iterate s).1 ∧
  S (length (registry s')) = length (registry s) ∧
  ∃ cell, registry s !! k = Some cell ∧
          Some (cell_held cell, cell_token cell) ∈ tokens s ∧
          stale s (cell_held cell, cell_token cell) ∧
          map_get (cell_held cell) (tokens s') = None.
Proof.
  intros Hwf%reachable_wf (cell & Hk & Hc & [= -> ->])%finalize_spec.
  pose proof (list_elem_of_lookup_2 _ _ _ Hk) as Hin.
  destruct (wf_registry _ Hwf cell Hin) as [Htgt Hget].
  assert (deref (cell_held cell) s = None) as Hd.
  { unfold deref. rewrite <- Htgt. by rewrite decide_True. }
  set (s' := with_tokens _ _).
  assert (live_view s' = live_view s) as Hview.
  { unfold live_view. by rewrite (elements_map_delete (cell_held cell) s s'). }
  split_and!; [done | done | | | |].
  - destruct (size_spec s) as (? & _ & ->). destruct (size_spec s') as (? & _ & ->).
    simpl. by rewrite Hview.
  - destruct (iterate_spec s) as (? & _ & ->). destruct (iterate_spec s') as (? & _ & ->).
    simpl. by rewrite Hview.
  - simpl. rewrite length_delete by eauto.
    apply lookup_lt_Some in Hk. lia.
  - exists cell. split_and!; [done | by apply map_get_Some | done |].
    simpl. apply map_get_None, map_keys_delete_notin, (wf_keys _ Hwf).
Qed.

(** ** Changing the container while a generator is suspended *)

Lemma elements_added a s :
  wf s → a ∉ collected s →
  elements (added a s) = elements s ++ [if ToBoolean (VRef a) then Some a else None].
Proof.
  intros Hwf Hc. unfold elements. simpl. unfold map_set.
  rewrite wf_fresh_key by (done || simpl; lia).
  rewrite fmap_app. f_equal. simpl. unfold yielded, deref. simpl.
  by rewrite decide_False.
Qed.

Lemma omap_id_cons (x : option Ref) l :
  omap id (x :: l) = match x with Some a => a :: omap id l | None => omap id l end.
Proof. by destruct x. Qed.

Lemma omap_insert_None (l : list (option Ref)) j d :
  NoDup (omap id l) → l !! j = Some (Some d) →
  omap id (<[j := None]> l) = filter (λ x, x ≠ d) (omap id l).
Proof.
  revert j. induction l as [|x l IH]; intros j Hnd Hj; [done|].
  rewrite omap_id_cons in Hnd. destruct j as [|j]; simpl in Hj.
  - injection Hj as ->. apply NoDup_cons in Hnd as [Hd Hnd].
    change (<[0 := None]> (Some d :: l)) with (None :: l).
    rewrite !omap_id_cons. rewrite filter_cons_False by (intros Hn; by apply Hn).
    rewrite filter_all; [done|]. by intros y Hy ->.
  - change (<[S j := None]> (x :: l)) with (x :: <[j := None]> l).
    rewrite !omap_id_cons. destruct x as [b|]; [|by apply IH].
    apply NoDup_cons in Hnd as [Hb Hnd]. rewrite (IH j Hnd Hj).
    rewrite filter_cons_True; [done|]. intros ->. apply Hb.
    apply list_elem_of_omap. exists (Some d). split; [|done].
    by eapply list_elem_of_lookup_2.
Qed.

Lemma omap_id_sublist (l k : list (option Ref)) :
  l `sublist_of` k → omap id l `sublist_of` omap id k.
Proof.
  induction 1 as [|x l k _ IH|x l k _ IH]; [done | |]; rewrite !omap_id_cons.
  - destruct x; [by apply sublist_skip | done].
  - destruct x; [by apply sublist_cons | done].
Qed.

Lemma omap_drop_insert_None (l : list (option Ref)) i j d :
  NoDup (omap id l) → l !! j = Some (Some d) →
  omap id (drop i (<[j := None]> l)) = filter (λ x, x ≠ d) (omap id (drop i l)).
Proof.
  intros Hnd Hj. destruct (decide (j < i)) as [Hlt|Hge].
  - rewrite drop_insert_lt by done. symmetry. apply filter_all. intros x Hx ->.
    rewrite <- (take_drop i l), omap_app in Hnd.
    apply NoDup_app in Hnd as (_ & Hdisj & _). apply (Hdisj d); [|done].
    apply list_elem_of_omap. exists (Some d). split; [|done].
    apply elem_of_take. eauto.
  - rewrite drop_insert_ge by lia. apply omap_insert_None.
    + eapply sublist_NoDup; [exact Hnd|]. apply omap_id_sublist, sublist_drop.
    + rewrite lookup_drop. by replace (i + (j - i)) with j by lia.
Qed.

Lemma remaining_live g s a : a ∈ omap id (remaining g s) → a ∈ live_view s.
Proof.
  destruct g as [i|]; simpl; [|by intros ?%elem_of_nil].
  intros (x & Hin & Hx)%list_elem_of_omap. apply list_elem_of_omap.
  exists x. split; [|done]. by apply (subseteq_drop i).
Qed.

(** X12. In a reachable state, with a generator of the default iteration
    suspended anywhere, [delete(e)] returns, or, when [e] is present, is
    not truthy and a traversal has pruned its entry, throws from
    [unregister]. Either way, what the generator yields from there on is
    what it would have yielded without the call, less [e]: nothing else
    is lost, repeated or reordered. *)
Theorem delete_during_traversal g e s :
  reachable s →
  ∃ l c s1 s2 s3,
    IterableWeakSet.drain g s = (Normal l, s2) ∧
    IterableWeakSet.delete (VRef e) s = (c, s1) ∧
    ((∃ b, c = Normal b) ∨
     (c = Throw InvalidUnregisterToken ∧ ToBoolean (VRef e) = false)) ∧
    IterableWeakSet.drain g s1 = (Normal (filter (λ v, v ≠ VRef e) l), s3).
Proof.
  intros Hwf%reachable_wf.
  destruct (drain_spec g s) as (s2 & _ & Heq).
  assert (ToBoolean (VRef e) = false →
          filter (λ v, v ≠ VRef e) (VRef <$> omap id (remaining g s))
          = VRef <$> omap id (remaining g s)) as Hfalsy.
  { intros Hb. apply filter_all.
    intros v (a & -> & Ha%remaining_live)%list_elem_of_fmap [= ->].
    apply (has_live_view _ _ Hwf) in Ha as [_ Ha]. congruence. }
  destruct (refs s !! e) as [r|] eqn:Hr.
  - destruct (wf_refs _ Hwf e r Hr) as (Hc & Htgt & Hlog).
    destruct (map_get r (tokens s)) as [t|] eqn:Ht.
    + destruct (drain_spec g (deleted e r t s)) as (s3 & _ & Heq3).
      eexists _, (Normal true), (deleted e r t s), s2, s3.
      split_and!; [exact Heq | by apply delete_present | left; eauto |].
      rewrite Heq3. do 2 f_equal.
      pose proof (map_get_Some _ _ _ Ht) as [j Hj]%list_elem_of_lookup_1.
      destruct (ToBoolean (VRef e)) eqn:Hb.
      * rewrite filter_fmap_VRef. f_equal. destruct g as [i|]; [|done]. simpl.
        rewrite (elements_deleted _ _ _ _ _ _ Hwf Hj).
        apply omap_drop_insert_None; [by apply live_view_NoDup|].
        unfold elements. rewrite list_lookup_fmap, Hj. simpl. f_equal.
        by apply yielded_Some.
      * rewrite Hfalsy by done. do 2 f_equal. destruct g as [i|]; [|done]. simpl.
        rewrite (elements_deleted _ _ _ _ _ _ Hwf Hj). f_equal.
        apply list_insert_id. unfold elements. rewrite list_lookup_fmap, Hj. simpl.
        f_equal. destruct (yielded r s) as [a|] eqn:Hy; [|done].
        apply yielded_Some in Hy as (Ha & _ & Hy). congruence.
    + assert (ToBoolean (VRef e) = false) as Hb.
      { destruct (ToBoolean (VRef e)); [|done]. destruct (Hlog eq_refl) as [? ?]. done. }
      destruct (drain_spec g (with_refs (delete e (refs s)) s)) as (s3 & _ & Heq3).
      eexists _, (Throw InvalidUnregisterToken), _, s2, s3.
      split_and!; [exact Heq | by eapply delete_broken | by right |].
      rewrite Heq3. do 2 f_equal. by rewrite Hfalsy.
  - eexists _, (Normal false), s, s2, s2.
    split_and!; [exact Heq | by apply (delete_absent (VRef e)) | left; eauto |].
    rewrite Heq. do 2 f_equal. symmetry. apply filter_all.
    intros v (a & -> & Ha%remaining_live)%list_elem_of_fmap [= ->].
    apply (has_live_view _ _ Hwf) in Ha as [[r' Hr'] _]. congruence.
Qed.

(** X13. In a reachable state, with a generator of the default iteration
    suspended at or before the end of the Reference Log, [add(e)] of an
    element the caller holds and that is not present is seen by that
    generator when [e] is truthy: it yields what it would have yielded,
    then [e]. When [e] is not truthy the generator yields what it would
    have yielded and passes over the new entry. *)
Theorem add_during_traversal index e s :
  reachable s → e ∉ collected s →
  IterableWeakSet.has (VRef e) s = (Normal false, s) →
  index ≤ length (tokens s) →
  ∃ l s1 s2 s3,
    IterableWeakSet.drain (Running index) s = (Normal l, s2) ∧
    IterableWeakSet.add (VRef e) s = (Normal This, s1) ∧
    IterableWeakSet.drain (Running index) s1
    = (Normal (l ++ (if ToBoolean (VRef e) then [VRef e] else [])), s3).
Proof.
  intros Hwf%reachable_wf Hc Hr%has_false_iff Hi.
  destruct (drain_spec (Running index) s) as (s2 & _ & Heq).
  destruct (drain_spec (Running index) (added e s)) as (s3 & _ & Heq3).
  eexists _, (added e s), s2, s3.
  split_and!; [exact Heq | by apply add_absent |].
  rewrite Heq3. do 2 f_equal. simpl. rewrite elements_added by done.
  rewrite drop_app_le by (unfold elements; by rewrite length_fmap).
  rewrite omap_app, fmap_app. f_equal. by destruct (ToBoolean (VRef e)).
Qed.

(** ** One cell of the registry for each entry of the Reference Log *)

Lemma NoDup_snd_inj (l : list (WeakRef * nat)) x y :
  NoDup (snd <$> l) → x ∈ l → y ∈ l → x.2 = y.2 → x = y.
Proof.
  induction l as [|z l IH]; intros Hnd Hx Hy Heq; [by apply elem_of_nil in Hx|].
  rewrite fmap_cons in Hnd. apply NoDup_cons in Hnd as [Hz Hnd].
  apply elem_of_cons in Hx as [->|Hx]; apply elem_of_cons in Hy as [->|Hy].
  - done.
  - exfalso. apply Hz. rewrite Heq. by apply list_elem_of_fmap_2.
  - exfalso. apply Hz. rewrite <- Heq. by apply list_elem_of_fmap_2.
  - by apply IH.
Qed.

Lemma entries_elem (m : list (option (WeakRef * nat))) entry :
  entry ∈ omap id m ↔ Some entry ∈ m.
Proof.
  rewrite list_elem_of_omap. split.
  - by intros ([e|] & Hin & [= ->]).
  - intros Hin. by exists (Some entry).
Qed.

Lemma entries_delete_sublist k (m : list (option (WeakRef * nat))) :
  omap id (map_delete k m) `sublist_of` omap id m.
Proof.
  induction m as [|[[k' v]|] m IH]; [done | |].
  - cbn [map_delete]. case_decide.
    + by apply sublist_cons.
    + by apply sublist_skip.
  - done.
Qed.

Lemma elem_of_delete_ne {A} (l : list A) k x y :
  x ∈ l → l !! k = Some y → x ≠ y → x ∈ delete k l.
Proof.
  revert k. induction l as [|z l IH]; intros k Hx Hk Hne; [done|].
  destruct k as [|k]; simpl in *.
  - injection Hk as ->. by apply elem_of_cons in Hx as [->|Hx].
  - apply elem_of_cons in Hx as [->|Hx]; [left | right; by eapply IH].
Qed.

Lemma subscribed_same s s' :
  tokens s' = tokens s → registry s' = registry s → subscribed s → subscribed s'.
Proof. intros Ht Hr [Hcells Htok]. split; rewrite ?Ht, ?Hr; done. Qed.

Lemma subscribed_init : subscribed init.
Proof.
  split; simpl; [|constructor]. intros entry Hin. by apply elem_of_nil in Hin.
Qed.

(** Emptying the slot of an entry and unregistering its token. *)
Lemma subscribed_remove s s' r t :
  wf s → subscribed s → Some (r, t) ∈ tokens s →
  tokens s' = map_delete r (tokens s) →
  registry s' = registry_unregister_cells t (registry s) →
  subscribed s'.
Proof.
  intros Hwf [Hcells Htok] Hin Ht Hr. split; rewrite ?Ht, ?Hr.
  - intros [r' t'] Hin'.
    assert (r' ≠ r) as Hne.
    { intros ->. eapply (map_keys_delete_notin r); [apply (wf_keys _ Hwf)|].
      apply map_keys_elem. eauto. }
    apply map_delete_elem in Hin'. apply list_elem_of_filter. split; [|by apply Hcells].
    simpl. intros ->. apply Hne.
    by assert ((r', t) = (r, t)) as [= ->]
      by (apply (NoDup_snd_inj _ _ _ Htok); by rewrite ?entries_elem).
  - eapply sublist_NoDup; [exact Htok|]. apply fmap_sublist, entries_delete_sublist.
Qed.

Lemma subscribed_added a s :
  wf s → subscribed s → subscribed (added a s).
Proof.
  intros Hwf [Hcells Htok]. unfold added.
  set (r := {| wr_id := S (next_id s); wr_target := a |}).
  assert (map_get r (tokens s) = None) as Hfresh.
  { apply wf_fresh_key; [done | simpl; lia]. }
  unfold map_set. rewrite Hfresh. split; simpl.
  - intros entry [Hin | Hin%list_elem_of_singleton]%elem_of_app.
    + apply elem_of_app. left. by apply Hcells.
    + injection Hin as ->. apply elem_of_app. right. left.
  - rewrite omap_app, fmap_app. apply NoDup_app. split_and!; [done | | apply NoDup_singleton].
    intros t ([r' t'] & -> & Hin%entries_elem)%list_elem_of_fmap
      [Heq|Hn]%elem_of_cons; [|by apply elem_of_nil in Hn].
    destruct (wf_tokens _ Hwf _ _ Hin) as (_ & Hlt & _). simpl in Heq. lia.
Qed.

Lemma subscribed_finalize k s r :
  wf s → subscribed s → finalize k s = Some r → subscribed r.2.
Proof.
  intros Hwf [Hcells Htok] (c & Hk & Hc & ->)%finalize_spec. split; simpl.
  - intros [r' t'] Hin'.
    assert (r' ≠ cell_held c) as Hne.
    { intros ->. eapply (map_keys_delete_notin (cell_held c)); [apply (wf_keys _ Hwf)|].
      apply map_keys_elem. eauto. }
    apply map_delete_elem in Hin'.
    eapply elem_of_delete_ne; [by apply Hcells | done |].
    intros <-. by apply Hne.
  - eapply sublist_NoDup; [exact Htok|]. apply fmap_sublist, entries_delete_sublist.
Qed.

Lemma prunes_subscribed s s' : prunes s s' → wf s → subscribed s → subscribed s'.
Proof.
  induction 1 as [|s r t s' Hin Hd _ IH]; [done|]. intros Hwf Hsub.
  apply IH; [by apply wf_prune|]. by eapply (subscribed_remove s).
Qed.

Lemma clear_loop_subscribed fuel i s s' :
  wf s → subscribed s →
  IterableWeakSet.for_of fuel (Running i)
    (λ value _, IterableWeakSet.delete value;; mret tt) tt s = (Normal tt, s') →
  subscribed s'.
Proof.
  revert i s. induction fuel as [|fuel IH]; intros i s Hwf Hsub Hfor; [done|].
  destruct (next_spec i s) as (s1 & Hp1 & Hnext).
  simpl in Hfor. rewrite (bind_normal _ _ _ _ _ Hnext) in Hfor.
  pose proof (prunes_wf _ _ Hp1 Hwf) as Hwf1.
  pose proof (prunes_subscribed _ _ Hp1 Hwf Hsub) as Hsub1.
  pose proof (first_live_spec (elements s) i) as Hfl.
  destruct (first_live (drop i (elements s)) i) as [[v|] g]; simpl in Hfor.
  - destruct Hfl as (j & a & -> & -> & _ & Hj & _).
    rewrite <- (prunes_elements _ _ Hp1) in Hj.
    apply elements_lookup_Some in Hj as (r & t & Hslot & <- & Hc).
    apply list_elem_of_lookup_2 in Hslot.
    destruct (live_entry_in_refs _ _ _ Hwf1 Hslot Hc) as [Hr Ht].
    pose proof (delete_present _ _ _ _ Hr Ht) as Hdel.
    rewrite (bind_normal _ _ _ _ _ (bind_normal _ _ _ _ _ Hdel)) in Hfor.
    unfold mret at 1, M_ret at 1 in Hfor.
    apply (IH (S j) _ (wf_deleted _ _ _ _ Hwf1 Hr Ht)); [|exact Hfor].
    by eapply (subscribed_remove s1).
  - by injection Hfor as <-.
Qed.

Lemma exec_subscribed e s s' :
  wf s → subscribed s → exec e s = Some s' → subscribed s'.
Proof.
  intros Hwf Hsub. destruct e as [v|v|v| | |g|a|k]; simpl.
  - destruct (held_by_caller v s); [|done]. by intros [= <-].
  - destruct (held_by_caller v s) eqn:Hheld; [|done].
    destruct (canBeHeldWeakly v) eqn:Hweak.
    + destruct v as [| | | | |a]; try done.
      destruct (refs s !! a) as [r|] eqn:Hr.
      * rewrite (add_present _ _ _ Hr). by intros [= <-].
      * rewrite (add_absent _ _ Hr). intros [= <-]. by apply subscribed_added.
    + rewrite (add_primitive _ _ Hweak). intros [= <-]. by apply (subscribed_same s).
  - destruct (held_by_caller v s); [|done].
    destruct (weakmap_get v (refs s)) as [r|] eqn:Hr.
    + destruct v as [| | | | |a]; try done. simpl in Hr.
      destruct (map_get r (tokens s)) as [t|] eqn:Ht.
      * rewrite (delete_present _ _ _ _ Hr Ht). intros [= <-].
        eapply (subscribed_remove s); [done | done | by apply map_get_Some | done | done].
      * rewrite (delete_broken _ _ _ Hr Ht). intros [= <-]. by apply (subscribed_same s).
    + rewrite (delete_absent _ _ Hr). by intros [= <-].
  - destruct (size_spec s) as (s1 & Hp & ->). intros [= <-].
    by eapply prunes_subscribed.
  - destruct (IterableWeakSet.clear s) as [[[]|?|] s1] eqn:Hclear; try done.
    + intros [= <-]. by eapply (clear_loop_subscribed _ 0 s).
    + destruct (clear_spec s Hwf) as (s2 & Heq & _). congruence.
  - destruct g as [i|].
    + destruct (next_spec i s) as (s1 & Hp & ->). intros [= <-].
      by eapply prunes_subscribed.
    + by intros [= <-].
  - case_decide; [done|]. intros [= <-]. by apply (subscribed_same s).
  - destruct (finalize k s) as [r|] eqn:Hf; [|done]. simpl.
    pose proof (subscribed_finalize _ _ _ Hwf Hsub Hf) as Hsub'.
    apply finalize_spec in Hf as (c & _ & _ & ->). by intros [= <-].
Qed.

Lemma reachable_subscribed s : reachable s → subscribed s.
Proof.
  intros [trace Hrun].
  assert (∀ s0, wf s0 → subscribed s0 → run trace s0 = Some s → subscribed s) as Hgen.
  { clear Hrun. induction trace as [|e trace IH]; simpl; intros s0 Hwf Hsub.
    - by intros [= <-].
    - destruct (exec e s0) as [s1|] eqn:He; [|done]. simpl.
      apply IH; [by apply (exec_wf e s0) | by apply (exec_subscribed e s0)]. }
  by apply (Hgen init wf_init subscribed_init).
Qed.

(** X14. In every reachable state the registry holds exactly one cell for
    each entry of the Reference Log and no other: the cell that [add]
    registered for the entry, with the entry's element as target, its
    [WeakRef] as held value and its token. *)
Theorem registry_matches_log s :
  reachable s →
  (∀ entry, Some entry ∈ tokens s → cell_of entry ∈ registry s) ∧
  (∀ c, c ∈ registry s →
     Some (cell_held c, cell_token c) ∈ tokens s ∧
     c = cell_of (cell_held c, cell_token c)) ∧
  NoDup (registry s) ∧
  length (registry s) = length (omap id (tokens s)).
Proof.
  intros Hreach. pose proof (reachable_wf _ Hreach) as Hwf.
  destruct (reachable_subscribed _ Hreach) as [Hcells Htok].
  assert (∀ c, c ∈ registry s →
     Some (cell_held c, cell_token c) ∈ tokens s ∧
     c = cell_of (cell_held c, cell_token c)) as Hback.
  { intros c Hin. destruct (wf_registry _ Hwf c Hin) as [Htgt Hget].
    split; [by apply map_get_Some|]. destruct c as [tg h tk]. simpl in *.
    unfold cell_of. simpl. by rewrite Htgt. }
  pose proof (NoDup_fmap_1 _ _ (wf_cells _ Hwf)) as Hnd.
  split_and!; [done | done | done |].
  apply Nat.le_antisymm.
  - rewrite <- (length_fmap cell_held (registry s)),
            <- (length_fmap fst (omap id (tokens s))).
    apply submseteq_length, NoDup_submseteq; [apply (wf_cells _ Hwf)|].
    intros h (c & -> & Hin)%list_elem_of_fmap.
    destruct (Hback c Hin) as [Hentry _].
    apply list_elem_of_fmap. exists (cell_held c, cell_token c).
    split; [done | by apply entries_elem].
  - rewrite <- (length_fmap snd (omap id (tokens s))),
            <- (length_fmap cell_token (registry s)).
    apply submseteq_length, NoDup_submseteq; [done|].
    intros t (entry & -> & Hin%entries_elem)%list_elem_of_fmap.
    apply list_elem_of_fmap. exists (cell_of entry). split; [done | by apply Hcells].
Qed.

(** X15. In every reachable state, for every stale entry of the
    Reference Log there is a cell of the registry whose callback is due,
    and running it returns without raising and takes that entry out of
    the Reference Log: no stale entry is out of reach of the callback. *)
Theorem stale_entry_can_be_finalized s entry :
  reachable s →
  Some entry ∈ tokens s → stale s entry →
  ∃ k s', finalize k s = Some (Normal tt, s') ∧
          exec (Finalize k) s = Some s' ∧
          map_get entry.1 (tokens s') = None.
Proof.
  intros Hreach Hin Hstale. pose proof (reachable_wf _ Hreach) as Hwf.
  destruct (reachable_subscribed _ Hreach) as [Hcells _].
  destruct (list_elem_of_lookup_1 _ _ (Hcells _ Hin)) as [k Hk].
  assert (finalize k s
          = Some (Normal tt, with_tokens (map_delete entry.1 (tokens s))
                               (with_registry (delete k (registry s)) s))) as Hf.
  { unfold finalize. rewrite Hk. simpl. rewrite decide_True; [done|].
    unfold stale, deref in Hstale. by case_decide. }
  eexists k, _. split_and!; [exact Hf | by simpl; rewrite Hf |].
  simpl. apply map_get_None, map_keys_delete_notin, (wf_keys _ Hwf).
Qed.

(** ** What the claims say, for the elements that are truthy *)

Lemma model_truthy ops l :
  Forall (λ v, ToBoolean v = true) l →
  Forall (λ op, ToBoolean (VRef (op_element op)) = true) ops →
  Forall (λ v, ToBoolean v = true) (insertion_order_model ops l).
Proof.
  revert l. induction ops as [|op ops IH]; intros l Hl Hops; [done|].
  apply Forall_cons in Hops as [Hop Hops]. apply IH; [|done].
  destruct op as [a|a]; simpl in *.
  - case_decide; [done|]. apply Forall_app. split; [done|]. by constructor.
  - apply Forall_forall. intros v [_ Hv]%list_elem_of_filter.
    rewrite Forall_forall in Hl. by apply Hl.
Qed.

Lemma live_view_truthy s :
  wf s → Forall (λ v, ToBoolean v = true) (VRef <$> live_view s).
Proof.
  intros Hwf. apply Forall_fmap, Forall_forall. intros a Ha.
  by apply (has_live_view _ _ Hwf) in Ha as [_ Ha].
Qed.

(** X16. The rule of the traversal, at the entry [(ref, token)] in slot
    [index] of the Reference Log of a reachable state. If [ref]
    dereferences to an element that is truthy, the traversal yields it and
    stops behind the slot, changing nothing. If [ref] is empty, or
    dereferences to an element that is not truthy, the traversal goes on
    behind the slot, yielding nothing for it, in the state where the slot
    is emptied and the cells under [token] are unregistered, so that no
    cell is left to call back for [ref]; unregistering [token] once more
    changes nothing, and the key [ref] never comes back. *)
Theorem traversal_step_rule s index ref token :
  reachable s →
  tokens s !! index = Some (Some (ref, token)) →
  (∀ a, deref ref s = Some a → ToBoolean (VRef a) = true →
     IterableWeakSet.next (Running index) s
     = (Normal (Some (VRef a), Running (S index)), s)) ∧
  (deref ref s = None ∨ (∃ a, deref ref s = Some a ∧ ToBoolean (VRef a) = false) →
     IterableWeakSet.next (Running index) s
     = IterableWeakSet.next (Running (S index)) (prune ref token s) ∧
     tokens (prune ref token s) = <[index := None]> (tokens s) ∧
     map_get ref (tokens (prune ref token s)) = None ∧
     refs (prune ref token s) = refs s ∧
     (∀ c, c ∈ registry (prune ref token s) →
        cell_token c ≠ token ∧ cell_held c ≠ ref) ∧
     registry_unregister_cells token (registry (prune ref token s))
     = registry (prune ref token s) ∧
     (∀ trace s', run trace (prune ref token s) = Some s' →
        map_get ref (tokens s') = None)).
Proof.
  intros Hwf%reachable_wf Hi. split.
  - intros a Hd Hb. eapply next_step_yield; [done|].
    apply deref_Some in Hd as [? ?]. by apply yielded_Some.
  - intros Hnone.
    assert (yielded ref s = None) as Hd.
    { destruct Hnone as [Hd|(a & Hd & Hb)]; [by apply stale_yields_nothing|].
      unfold yielded. rewrite Hd. simpl. by rewrite Hb. }
    assert (Some (ref, token) ∈ tokens s) as Hin by (by eapply list_elem_of_lookup_2).
    pose proof (wf_prune _ _ token Hwf Hin Hd) as Hwf'.
    assert (map_get ref (tokens (prune ref token s)) = None) as Hgone.
    { apply map_get_None. apply map_keys_delete_notin, (wf_keys _ Hwf). }
    split_and!.
    + by apply next_step_prune.
    + simpl. eapply map_delete_index; [apply (wf_keys _ Hwf) | done].
    + done.
    + done.
    + intros c Hc. simpl in Hc. split; [by eapply unregister_gone|].
      eapply (unregister_held s); [done | | exact Hc].
      apply map_get_elem; [apply (wf_keys _ Hwf) | done].
    + apply unregister_absent. intros c Hc. simpl in Hc. by eapply unregister_gone.
    + intros trace s' Hrun. destruct (run_wf _ _ _ Hwf' Hrun) as [_ [_ Hkeys]].
      apply map_get_None. intros Hk. destruct (Hkeys _ Hk) as [Hold|Hnew].
      * by apply map_get_None in Hgone.
      * apply list_elem_of_lookup_2 in Hi.
        destruct (wf_tokens _ Hwf _ _ Hi) as (Hlt & _). simpl in Hnew. lia.
Qed.

(** X17. From a reachable state, after any sequence of [add] and
    [delete] calls on elements the caller holds, a full iteration yields
    the truthy elements of what the ordered set of the specification
    holds, in its order; when every element the calls name is truthy,
    that is all the ordered set holds. In particular, on a new
    container, adding the objects [a], [b], [c], deleting [b] and adding
    [b] again makes the iteration yield [a], [c], [b]. *)
Theorem insertion_order_of_truthy_elements :
  (∀ s ops l0,
     reachable s →
     Forall (λ op, op_element op ∉ collected s) ops →
     (IterableWeakSet.iterate s).1 = Normal l0 →
     ∃ s', run (op_event <$> ops) s = Some s' ∧
           (IterableWeakSet.iterate s').1
           = Normal (filter (λ v, ToBoolean v = true) (insertion_order_model ops l0)) ∧
           (Forall (λ op, ToBoolean (VRef (op_element op)) = true) ops →
            (IterableWeakSet.iterate s').1 = Normal (insertion_order_model ops l0))) ∧
  (∀ a b c, a ≠ b → a ≠ c → b ≠ c →
     ∃ s', run [CallAdd (VRef (Object a)); CallAdd (VRef (Object b));
                CallAdd (VRef (Object c)); CallDelete (VRef (Object b));
                CallAdd (VRef (Object b))] init = Some s' ∧
           (IterableWeakSet.iterate s').1
           = Normal [VRef (Object a); VRef (Object c); VRef (Object b)]).
Proof.
  assert (∀ s ops l0, wf s →
     Forall (λ op, op_element op ∉ collected s) ops →
     (IterableWeakSet.iterate s).1 = Normal l0 →
     ∃ s', run (op_event <$> ops) s = Some s' ∧
           (IterableWeakSet.iterate s').1
           = Normal (filter (λ v, ToBoolean v = true) (insertion_order_model ops l0)) ∧
           (Forall (λ op, ToBoolean (VRef (op_element op)) = true) ops →
            (IterableWeakSet.iterate s').1 = Normal (insertion_order_model ops l0)))
    as Hgen.
  { intros s ops l0 Hwf Hheld Hl0.
    destruct (iterate_spec s) as (s1 & _ & Heq). rewrite Heq in Hl0.
    injection Hl0 as <-.
    pose proof (live_view_truthy s Hwf) as Htruthy.
    destruct (run_ops ops s (VRef <$> live_view s) Hwf Hheld) as (s' & Hrun & _ & Hview).
    { symmetry. apply filter_all. by apply Forall_forall. }
    exists s'. split; [done|].
    destruct (iterate_spec s') as (s2 & _ & ->). simpl. rewrite Hview.
    split; [done|]. intros Hops. f_equal. apply filter_all.
    by apply Forall_forall, model_truthy. }
  split.
  - intros s ops l0 Hreach. by apply Hgen, reachable_wf.
  - intros a b c Hab Hac Hbc.
    destruct (Hgen init [OpAdd (Object a); OpAdd (Object b); OpAdd (Object c);
                         OpDelete (Object b); OpAdd (Object b)] [])
      as (s' & Hrun & _ & Hit).
    + apply wf_init.
    + repeat constructor; simpl; apply not_elem_of_empty.
    + done.
    + exists s'. split; [exact Hrun|]. rewrite Hit by (by repeat constructor).
      rewrite insertion_order_example; [done | congruence..].
Qed.

(** X18. In every reachable state and for every element [e] that is
    truthy: [add(e)] returns, [has(e)] is true right after it, a
    following [delete(e)] returns [true], and [has(e)] is false right
    after that. *)
Theorem add_has_delete_has_truthy e s :
  reachable s → ToBoolean (VRef e) = true →
  ∃ s1 s2,
    IterableWeakSet.add (VRef e) s = (Normal This, s1) ∧
    IterableWeakSet.has (VRef e) s1 = (Normal true, s1) ∧
    IterableWeakSet.delete (VRef e) s1 = (Normal true, s2) ∧
    IterableWeakSet.has (VRef e) s2 = (Normal false, s2).
Proof.
  intros Hwf%reachable_wf Hb.
  assert (∀ s1 r t, refs s1 !! e = Some r → map_get r (tokens s1) = Some t →
    IterableWeakSet.has (VRef e) s1 = (Normal true, s1) ∧
    IterableWeakSet.delete (VRef e) s1 = (Normal true, deleted e r t s1) ∧
    IterableWeakSet.has (VRef e) (deleted e r t s1)
    = (Normal false, deleted e r t s1)) as Hstep.
  { intros s1 r t Hr Ht. split_and!.
    - rewrite has_spec. simpl. by rewrite bool_decide_eq_true_2 by eauto.
    - by apply delete_present.
    - rewrite has_spec. simpl. rewrite lookup_delete_eq.
      by rewrite bool_decide_eq_false_2 by (by intros [? ?]). }
  destruct (refs s !! e) as [r|] eqn:Hr.
  - destruct (wf_refs _ Hwf e r Hr) as (_ & _ & Hlog). destruct (Hlog Hb) as [t Ht].
    exists s, (deleted e r t s). split; [by eapply add_present|]. by apply Hstep.
  - eexists (added e s), _. split; [by apply add_absent|]. apply Hstep.
    + simpl. apply lookup_insert_eq.
    + simpl. apply map_get_set.
Qed.

(** X19. In every reachable state, a [WeakRef] that the Membership Index
    holds for an element belongs to that element, which is not
    reclaimed; when the element is truthy the [WeakRef] is a key of the
    Reference Log, so in [delete] the lookup of the token finds one,
    which is the token of the cells registered for that [WeakRef],
    [unregister] gets a token and [delete] returns [true]. [delete]
    throws for no truthy value; when it throws, it was called on an
    element that is present and not truthy, and the error is that of
    [unregister]. *)
Theorem truthy_refs_entry_is_logged s :
  reachable s →
  (∀ a r, refs s !! a = Some r →
     (a ∉ collected s) ∧ wr_target r = a ∧
     (ToBoolean (VRef a) = true →
      (r ∈ map_keys (tokens s)) ∧
      ∃ t, tokens_get r s = (Normal (Some t), s) ∧
           (∀ c, c ∈ registry s → cell_held c = r → cell_token c = t) ∧
           (registry_unregister (Some t) s).1 = Normal tt ∧
           IterableWeakSet.delete (VRef a) s = (Normal true, deleted a r t s))) ∧
  (∀ v, (∃ b s', IterableWeakSet.delete v s = (Normal b, s')) ∨
        (∃ s', IterableWeakSet.delete v s = (Throw InvalidUnregisterToken, s') ∧
               ToBoolean v = false ∧
               IterableWeakSet.has v s = (Normal true, s))).
Proof.
  intros Hwf%reachable_wf. split.
  - intros a r Hr. destruct (wf_refs _ Hwf a r Hr) as (Hc & Htgt & Hlog).
    split_and!; [done | done |]. intros Hb. destruct (Hlog Hb) as [t Ht].
    split; [apply map_get_is_Some; eauto|].
    exists t. split_and!; [| | done | by apply delete_present].
    + unfold tokens_get, gets. by rewrite Ht.
    + intros c Hin Heq. destruct (wf_registry _ Hwf c Hin) as [_ Hget].
      rewrite Heq in Hget. congruence.
  - intros v. destruct (weakmap_get v (refs s)) as [r|] eqn:Hr.
    + destruct v as [| | | | |a]; try done. simpl in Hr.
      destruct (wf_refs _ Hwf a r Hr) as (_ & _ & Hlog).
      destruct (map_get r (tokens s)) as [t|] eqn:Ht.
      * left. rewrite (delete_present _ _ _ _ Hr Ht). eauto.
      * right. rewrite (delete_broken _ _ _ Hr Ht). eexists. split_and!; [done | |].
        -- destruct (ToBoolean (VRef a)); [|done]. destruct (Hlog eq_refl) as [? ?]. done.
        -- apply has_true_iff. eauto.
    + left. rewrite (delete_absent _ _ Hr). eauto.
Qed.

(** * The further properties at work on [example_state] and [falsy_state] *)

Lemma iteration_is_a_set_witness :
  ∃ l s', IterableWeakSet.iterate falsy_state = (Normal l, s') ∧
          NoDup l ∧
          (∀ v, v ∈ l ↔
                IterableWeakSet.has v falsy_state = (Normal true, falsy_state) ∧
                ToBoolean v = true) ∧
          (IterableWeakSet.size falsy_state).1 = Normal (length l).
Proof.
  apply (iteration_is_a_set falsy_state).
  exists [CallAdd (VRef (Object 1)); CallAdd (VRef (HTMLDDA 2))].
  vm_compute. reflexivity.
Defined.

Lemma full_iteration_prunes_all_witness :
  ∃ l s1 s2,
    IterableWeakSet.iterate example_state = (Normal l, s1) ∧
    no_stale s1 ∧
    (∀ k, finalize k s1 = None) ∧
    IterableWeakSet.iterate s1 = (Normal l, s1) ∧
    IterableWeakSet.size s1 = (Normal (length l), s1) ∧
    IterableWeakSet.size example_state = (Normal (length l), s2) ∧
    no_stale s2.
Proof.
  apply (full_iteration_prunes_all example_state).
  exists [CallAdd (VRef (Object 1)); CallAdd (VRef (Object 2)); Reclaim (Object 1)].
  vm_compute. reflexivity.
Defined.

Lemma forEach_visits_the_iteration_witness :
  length (tokens example_state) < 5 ∧
  ∃ l s',
    IterableWeakSet.iterate example_state = (Normal l, s') ∧
    IterableWeakSet.forEach 5
      (λ (_ : unit) value key acc, mret (acc ++ [(value, key)])) tt [] example_state
    = (Normal (foldl (λ acc v, acc ++ [(v, v)]) [] l), s').
Proof.
  split; [vm_compute; lia|].
  apply (forEach_visits_the_iteration
           (λ (_ : unit) value key acc, acc ++ [(value, key)]) tt [] 5 example_state).
  vm_compute. lia.
Defined.

Lemma clear_removes_everything_witness :
  ∃ s', IterableWeakSet.clear falsy_state = (Normal tt, s') ∧
        registry s' = [] ∧
        refs s' !! Object 1 = None ∧
        refs s' !! HTMLDDA 2 = refs falsy_state !! HTMLDDA 2 ∧
        IterableWeakSet.size s' = (Normal 0, s').
Proof.
  destruct (clear_removes_everything falsy_state)
    as (s' & Hclear & _ & Hreg & _ & Hrefs & _ & Hsize & _).
  - exists [CallAdd (VRef (Object 1)); CallAdd (VRef (HTMLDDA 2))].
    vm_compute. reflexivity.
  - exists s'. split; [exact Hclear|]. split; [exact Hreg|].
    split; [exact (Hrefs (Object 1))|]. split; [exact (Hrefs (HTMLDDA 2)) | exact Hsize].
Defined.



Lemma add_absent_grows_by_one_witness :
  (HTMLDDA 3 ∉ collected example_state) ∧
  IterableWeakSet.has (VRef (HTMLDDA 3)) example_state = (Normal false, example_state) ∧
  ∃ l s1,
    (IterableWeakSet.iterate example_state).1 = Normal l ∧
    (IterableWeakSet.size example_state).1 = Normal (length l) ∧
    IterableWeakSet.add (VRef (HTMLDDA 3)) example_state = (Normal This, s1) ∧
    IterableWeakSet.has (VRef (HTMLDDA 3)) s1 = (Normal true, s1) ∧
    (IterableWeakSet.iterate s1).1
    = Normal (l ++ (if ToBoolean (VRef (HTMLDDA 3)) then [VRef (HTMLDDA 3)] else [])) ∧
    (IterableWeakSet.size s1).1
    = Normal (length l + (if ToBoolean (VRef (HTMLDDA 3)) then 1 else 0)).
Proof.
  split; [vm_compute; intros H; discriminate H|].
  split; [vm_compute; reflexivity|].
  apply (add_absent_grows_by_one (HTMLDDA 3) example_state).
  - exists [CallAdd (VRef (Object 1)); CallAdd (VRef (Object 2)); Reclaim (Object 1)].
    vm_compute. reflexivity.
  - vm_compute. intros H. discriminate H.
  - vm_compute. reflexivity.
Defined.

Lemma delete_present_shrinks_by_one_witness :
  IterableWeakSet.has (VRef (HTMLDDA 2)) falsy_pruned = (Normal true, falsy_pruned) ∧
  ∃ l c s1,
    (IterableWeakSet.iterate falsy_pruned).1 = Normal l ∧
    IterableWeakSet.delete (VRef (HTMLDDA 2)) falsy_pruned = (c, s1) ∧
    (c = Normal true ∨
     (c = Throw InvalidUnregisterToken ∧ ToBoolean (VRef (HTMLDDA 2)) = false)) ∧
    IterableWeakSet.has (VRef (HTMLDDA 2)) s1 = (Normal false, s1) ∧
    (IterableWeakSet.size s1).1
    = Normal (length (filter (λ v, v ≠ VRef (HTMLDDA 2)) l)).
Proof.
  split; [vm_compute; reflexivity|].
  destruct (delete_present_shrinks_by_one (HTMLDDA 2) falsy_pruned)
    as (l & c & s1 & Hit & Hdel & Hc & Hhas & _ & _ & Hsize1 & _).
  - exists [CallAdd (VRef (Object 1)); CallAdd (VRef (HTMLDDA 2)); CallSize].
    vm_compute. reflexivity.
  - vm_compute. reflexivity.
  - exists l, c, s1. split; [exact Hit|]. split; [exact Hdel|].
    split; [exact Hc|]. split; [exact Hhas | exact Hsize1].
Defined.

Lemma reclaim_drops_exactly_one_witness :
  IterableWeakSet.has (VRef (Object 2)) example_state = (Normal true, example_state) ∧
  ∃ l,
    (IterableWeakSet.iterate example_state).1 = Normal l ∧
    (IterableWeakSet.iterate (reclaim (Object 2) example_state)).1
    = Normal (filter (λ v, v ≠ VRef (Object 2)) l) ∧
    (IterableWeakSet.size example_state).1
    = Normal (length (filter (λ v, v ≠ VRef (Object 2)) l)
              + (if ToBoolean (VRef (Object 2)) then 1 else 0)) ∧
    (IterableWeakSet.size (reclaim (Object 2) example_state)).1
    = Normal (length (filter (λ v, v ≠ VRef (Object 2)) l)).
Proof.
  split; [vm_compute; reflexivity|].
  destruct (reclaim_drops_exactly_one (Object 2) example_state)
    as (l & _ & Hit & Hit' & Hsize & Hsize' & _).
  - exists [CallAdd (VRef (Object 1)); CallAdd (VRef (Object 2)); Reclaim (Object 1)].
    vm_compute. reflexivity.
  - vm_compute. reflexivity.
  - exists l. split; [exact Hit|]. split; [exact Hit'|]. split; [exact Hsize | exact Hsize'].
Defined.

Lemma finalization_is_unobservable_witness :
  finalize 0 example_state = Some (Normal tt, example_finalized) ∧
  (IterableWeakSet.size example_finalized).1 = (IterableWeakSet.size example_state).1 ∧
  (IterableWeakSet.iterate example_finalized).1 = (IterableWeakSet.iterate example_state).1 ∧
  S (length (registry example_finalized)) = length (registry example_state).
Proof.
  split; [vm_compute; reflexivity|].
  destruct (finalization_is_unobservable 0 example_state (Normal tt) example_finalized)
    as (_ & _ & Hsize & Hit & Hlen & _).
  - exists [CallAdd (VRef (Object 1)); CallAdd (VRef (Object 2)); Reclaim (Object 1)].
    vm_compute. reflexivity.
  - vm_compute. reflexivity.
  - split; [exact Hsize|]. split; [exact Hit | exact Hlen].
Defined.

Lemma delete_during_traversal_witness :
  ∃ l c s1 s2 s3,
    IterableWeakSet.drain (Running 1) example_state = (Normal l, s2) ∧
    IterableWeakSet.delete (VRef (Object 2)) example_state = (c, s1) ∧
    ((∃ b, c = Normal b) ∨
     (c = Throw InvalidUnregisterToken ∧ ToBoolean (VRef (Object 2)) = false)) ∧
    IterableWeakSet.drain (Running 1) s1
    = (Normal (filter (λ v, v ≠ VRef (Object 2)) l), s3).
Proof.
  apply (delete_during_traversal (Running 1) (Object 2) example_state).
  exists [CallAdd (VRef (Object 1)); CallAdd (VRef (Object 2)); Reclaim (Object 1)].
  vm_compute. reflexivity.
Defined.

Lemma add_during_traversal_witness :
  2 ≤ length (tokens example_state) ∧
  ∃ l s1 s2 s3,
    IterableWeakSet.drain (Running 2) example_state = (Normal l, s2) ∧
    IterableWeakSet.add (VRef (Object 3)) example_state = (Normal This, s1) ∧
    IterableWeakSet.drain (Running 2) s1
    = (Normal (l ++ (if ToBoolean (VRef (Object 3)) then [VRef (Object 3)] else [])), s3).
Proof.
  split; [vm_compute; lia|].
  apply (add_during_traversal 2 (Object 3) example_state).
  - exists [CallAdd (VRef (Object 1)); CallAdd (VRef (Object 2)); Reclaim (Object 1)].
    vm_compute. reflexivity.
  - vm_compute. intros H. discriminate H.
  - vm_compute. reflexivity.
  - vm_compute. lia.
Defined.

Lemma registry_matches_log_witness :
  NoDup (registry example_state) ∧
  length (registry example_state) = length (omap id (tokens example_state)).
Proof.
  destruct (registry_matches_log example_state) as (_ & _ & Hnd & Hlen).
  - exists [CallAdd (VRef (Object 1)); CallAdd (VRef (Object 2)); Reclaim (Object 1)].
    vm_compute. reflexivity.
  - split; [exact Hnd | exact Hlen].
Defined.

Lemma stale_entry_can_be_finalized_witness :
  Some ({| wr_id := 1; wr_target := Object 1 |}, 0) ∈ tokens example_state ∧
  stale example_state ({| wr_id := 1; wr_target := Object 1 |}, 0) ∧
  ∃ k s', finalize k example_state = Some (Normal tt, s') ∧
          exec (Finalize k) example_state = Some s' ∧
          map_get {| wr_id := 1; wr_target := Object 1 |} (tokens s') = None.
Proof.
  split; [vm_compute; left|]. split; [vm_compute; reflexivity|].
  apply (stale_entry_can_be_finalized example_state
           ({| wr_id := 1; wr_target := Object 1 |}, 0)).
  - exists [CallAdd (VRef (Object 1)); CallAdd (VRef (Object 2)); Reclaim (Object 1)].
    vm_compute. reflexivity.
  - vm_compute. left.
  - vm_compute. reflexivity.
Defined.

Lemma traversal_step_rule_witness :
  tokens falsy_state !! 1 = Some (Some (falsy_ref, 2)) ∧
  deref falsy_ref falsy_state = Some (HTMLDDA 2) ∧
  ToBoolean (VRef (HTMLDDA 2)) = false ∧
  IterableWeakSet.next (Running 1) falsy_state
  = IterableWeakSet.next (Running 2) (prune falsy_ref 2 falsy_state) ∧
  tokens (prune falsy_ref 2 falsy_state) = <[1 := None]> (tokens falsy_state).
Proof.
  split; [reflexivity|]. split; [vm_compute; reflexivity|]. split; [reflexivity|].
  destruct (traversal_step_rule falsy_state 1 falsy_ref 2) as [_ Hprune].
  - exists [CallAdd (VRef (Object 1)); CallAdd (VRef (HTMLDDA 2))].
    vm_compute. reflexivity.
  - reflexivity.
  - destruct Hprune as (Hnext & Htokens & _).
    + right. exists (HTMLDDA 2). split; [vm_compute; reflexivity | reflexivity].
    + split; [exact Hnext | exact Htokens].
Defined.

Lemma insertion_order_of_truthy_elements_witness :
  (∃ s', run (op_event <$> [OpDelete (Object 2); OpAdd (HTMLDDA 3); OpAdd (Object 2)])
           example_state = Some s' ∧
         (IterableWeakSet.iterate s').1
         = Normal (filter (λ v, ToBoolean v = true)
                     (insertion_order_model
                        [OpDelete (Object 2); OpAdd (HTMLDDA 3); OpAdd (Object 2)]
                        [VRef (Object 2)]))) ∧
  (∃ s', run [CallAdd (VRef (Object 1)); CallAdd (VRef (Object 2));
              CallAdd (VRef (Object 3)); CallDelete (VRef (Object 2));
              CallAdd (VRef (Object 2))] init = Some s' ∧
         (IterableWeakSet.iterate s').1
         = Normal [VRef (Object 1); VRef (Object 3); VRef (Object 2)]).
Proof.
  split.
  - destruct (proj1 insertion_order_of_truthy_elements example_state
                [OpDelete (Object 2); OpAdd (HTMLDDA 3); OpAdd (Object 2)]
                [VRef (Object 2)]) as (s' & Hrun & Hit & _).
    + exists [CallAdd (VRef (Object 1)); CallAdd (VRef (Object 2)); Reclaim (Object 1)].
      vm_compute. reflexivity.
    + repeat constructor; vm_compute; intros H; discriminate H.
    + vm_compute. reflexivity.
    + exists s'. split; [exact Hrun | exact Hit].
  - apply (proj2 insertion_order_of_truthy_elements 1 2 3); lia.
Defined.

Lemma add_has_delete_has_truthy_witness :
  ToBoolean (VRef (Object 3)) = true ∧
  ∃ s1 s2,
    IterableWeakSet.add (VRef (Object 3)) falsy_pruned = (Normal This, s1) ∧
    IterableWeakSet.has (VRef (Object 3)) s1 = (Normal true, s1) ∧
    IterableWeakSet.delete (VRef (Object 3)) s1 = (Normal true, s2) ∧
    IterableWeakSet.has (VRef (Object 3)) s2 = (Normal false, s2).
Proof.
  split; [reflexivity|].
  apply (add_has_delete_has_truthy (Object 3) falsy_pruned).
  - exists [CallAdd (VRef (Object 1)); CallAdd (VRef (HTMLDDA 2)); CallSize].
    vm_compute. reflexivity.
  - reflexivity.
Defined.

Lemma truthy_refs_entry_is_logged_witness :
  refs falsy_pruned !! Object 1 = Some {| wr_id := 1; wr_target := Object 1 |} ∧
  ToBoolean (VRef (Object 1)) = true ∧
  {| wr_id := 1; wr_target := Object 1 |} ∈ map_keys (tokens falsy_pruned) ∧
  ((∃ b s', IterableWeakSet.delete (VRef (HTMLDDA 2)) falsy_pruned = (Normal b, s')) ∨
   (∃ s', IterableWeakSet.delete (VRef (HTMLDDA 2)) falsy_pruned
          = (Throw InvalidUnregisterToken, s') ∧
          ToBoolean (VRef (HTMLDDA 2)) = false ∧
          IterableWeakSet.has (VRef (HTMLDDA 2)) falsy_pruned
          = (Normal true, falsy_pruned))).
Proof.
  split; [vm_compute; reflexivity|]. split; [reflexivity|].
  destruct (truthy_refs_entry_is_logged falsy_pruned) as [Hrefs Hdel].
  - exists [CallAdd (VRef (Object 1)); CallAdd (VRef (HTMLDDA 2)); CallSize].
    vm_compute. reflexivity.
  - destruct (Hrefs (Object 1) {| wr_id := 1; wr_target := Object 1 |})
      as (_ & _ & Hlog); [vm_compute; reflexivity|].
    destruct (Hlog eq_refl) as [Hkey _].
    split; [exact Hkey | apply Hdel].
Defined.
